(** * Regula: expression kernel, JSON codec and HTTP handlers

    A shallow embedding of the Go packages [rule] (expr.go, control_expr.go,
    json.go) and [server] (the ruleset HTTP API), with the parts of the Go
    standard library they call ([strconv], [hash/fnv], [encoding/json]). *)

From Stdlib Require Import ZArith String Ascii List Bool Lia.
From Stdlib Require Import DecimalString DecimalZ DecimalN DecimalPos.
From Stdlib Require Import Floats.SpecFloat.
From stdpp Require Import base option list gmap strings.

Local Open Scope string_scope.

(** ** Go results

    A Go call returns a value, returns a non-nil [error], or panics. *)

Inductive strconv_err := ErrSyntax | ErrRange.

Inductive error :=
| errors_New (msg : string)
| NumError (Func Num : string) (Err : strconv_err)
| ErrParamNotFound
| ErrParamTypeMismatch
| ErrRulesetNotFound
| ErrRulesetNotModified
| ErrAlreadyExists
| ValidationError (msg : string)
| context_Canceled
| context_DeadlineExceeded.

Inductive panic :=
| interface_conversion
| index_out_of_range
| nil_pointer_dereference.

Inductive outcome (A : Type) :=
| Ok (a : A)
| Err (e : error)
| Panic (p : panic).
Arguments Ok {A} a.
Arguments Err {A} e.
Arguments Panic {A} p.

#[global] Instance outcome_ret : MRet outcome := @Ok.
#[global] Instance outcome_bind : MBind outcome := fun A B k r =>
  match r with
  | Ok a => k a
  | Err e => Err e
  | Panic p => Panic p
  end.

#[global] Instance strconv_err_eq_dec : EqDecision strconv_err.
Proof. solve_decision. Defined.
#[global] Instance error_eq_dec : EqDecision error.
Proof. solve_decision. Defined.

(** ** strconv *)

Module strconv.

Definition is_digit (c : ascii) : bool :=
  (48 <=? nat_of_ascii c)%nat && (nat_of_ascii c <=? 57)%nat.

Definition digit_val (c : ascii) : Z := (Z.of_nat (nat_of_ascii c) - 48)%Z.

Definition maxUint64 : Z := (2 ^ 64 - 1)%Z.

(** The scanning loop of [ParseUint(s, 10, 64)]: the accumulated value and,
    when the scan stops early, the reason. *)
Fixpoint ParseUint_loop (s : string) (n : Z) : Z * option strconv_err :=
  match s with
  | EmptyString => (n, None)
  | String c s' =>
      if negb (is_digit c) then (0%Z, Some ErrSyntax)
      else if (maxUint64 / 10 + 1 <=? n)%Z then (maxUint64, Some ErrRange)
      else
        let n1 := (n * 10 + digit_val c)%Z in
        if (maxUint64 <? n1)%Z then (maxUint64, Some ErrRange)
        else ParseUint_loop s' n1
  end.

Definition ParseUint (s : string) : Z * option strconv_err :=
  match s with
  | EmptyString => (0%Z, Some ErrSyntax)
  | _ => ParseUint_loop s 0%Z
  end.

(** [ParseInt(s, 10, 64)]. On an error Go also returns a number (0 or the
    nearest bound); every caller in the package drops it. *)
Definition ParseInt (s0 : string) : outcome Z :=
  match s0 with
  | EmptyString => Err (NumError "ParseInt" s0 ErrSyntax)
  | String c rest =>
      let neg := Ascii.eqb c "-" in
      let s := if Ascii.eqb c "+" || neg then rest else s0 in
      let '(un, err) := ParseUint s in
      match err with
      | Some ErrSyntax => Err (NumError "ParseInt" s0 ErrSyntax)
      | _ =>
          let cutoff := (2 ^ 63)%Z in
          if negb neg && (cutoff <=? un)%Z then Err (NumError "ParseInt" s0 ErrRange)
          else if neg && (cutoff <? un)%Z then Err (NumError "ParseInt" s0 ErrRange)
          else Ok (if neg then (- un)%Z else un)
      end
  end.

Definition FormatInt (i : Z) : string := NilZero.string_of_int (Z.to_int i).

Definition ParseBool (str : string) : outcome bool :=
  if existsb (String.eqb str) ["1"; "t"; "T"; "TRUE"; "true"; "True"] then Ok true
  else if existsb (String.eqb str) ["0"; "f"; "F"; "FALSE"; "false"; "False"] then Ok false
  else Err (NumError "ParseBool" str ErrSyntax).

Definition FormatBool (b : bool) : string := if b then "true" else "false".

(** *** float64

    A [float64] is an IEEE 754 binary64 number, as the Standard Library
    specifies it ([spec_float] at precision 53 and maximal exponent 1024). *)

Definition float64 : Type := spec_float.
Definition prec : Z := 53%Z.
Definition emax : Z := 1024%Z.

(** Go's [<] and [<=] on float64 (false as soon as one side is NaN). *)
Definition float64_lt (x y : float64) : bool := SFltb x y.
Definition float64_le (x y : float64) : bool := SFleb x y.

Definition lower (c : ascii) : ascii :=
  let n := nat_of_ascii c in
  if (65 <=? n)%nat && (n <=? 90)%nat then ascii_of_nat (n + 32) else c.

Fixpoint to_lower (s : string) : string :=
  match s with
  | EmptyString => EmptyString
  | String c s' => String (lower c) (to_lower s')
  end.

(** The spellings of infinities and NaN that [ParseFloat] accepts,
    whatever the case of their letters. *)
Definition special (s : string) : option float64 :=
  let l := to_lower s in
  if existsb (String.eqb l) ["+inf"; "+infinity"; "inf"; "infinity"] then Some (S754_infinity false)
  else if existsb (String.eqb l) ["-inf"; "-infinity"] then Some (S754_infinity true)
  else if String.eqb l "nan" then Some S754_nan
  else None.

(** A run of decimal digits: the accumulated number, the count of digits
    read, and the rest of the input. *)
Fixpoint span_digits (s : string) (acc n : Z) : Z * Z * string :=
  match s with
  | String c s' =>
      if is_digit c then span_digits s' (acc * 10 + digit_val c)%Z (n + 1)%Z
      else (acc, n, s)
  | EmptyString => (acc, n, s)
  end.

(** The digits of an exponent; Go stops accumulating from 10000 on. *)
Fixpoint span_exp (s : string) (e : Z) : Z * string :=
  match s with
  | String c s' =>
      if is_digit c then span_exp s' (if (e <? 10000)%Z then e * 10 + digit_val c else e)%Z
      else (e, s)
  | EmptyString => (e, s)
  end.

(** [readFloat] on the decimal syntax: an optional sign, digits with at
    most one dot among them (at least one digit), and an optional exponent
    (e or E, an optional sign, at least one digit). It gives the sign, the
    mantissa as an integer, and the power of ten that scales it. *)
Definition readFloat (s : string) : option (bool * Z * Z) :=
  let '(neg, s) :=
    match s with
    | String "+"%char s' => (false, s')
    | String "-"%char s' => (true, s')
    | _ => (false, s)
    end in
  let '(ip, nip, s) := span_digits s 0%Z 0%Z in
  let '(m, nfp, s) :=
    match s with
    | String "."%char s' => span_digits s' ip 0%Z
    | _ => (ip, 0%Z, s)
    end in
  if (nip + nfp =? 0)%Z then None
  else
    match s with
    | EmptyString => Some (neg, m, (- nfp)%Z)
    | String c s' =>
        if Ascii.eqb c "e" || Ascii.eqb c "E" then
          let '(esign, s') :=
            match s' with
            | String "+"%char t => (1%Z, t)
            | String "-"%char t => ((-1)%Z, t)
            | _ => (1%Z, s')
            end in
          match s' with
          | String d _ =>
              if is_digit d then
                match span_exp s' 0%Z with
                | (e, EmptyString) => Some (neg, m, (e * esign - nfp)%Z)
                | _ => None
                end
              else None
          | EmptyString => None
          end
        else None
    end.

(** The number of decimal digits of a positive integer. *)
Definition ndigits (m : Z) : Z := Z.of_nat (String.length (FormatInt m)).

(** The binary64 number nearest to [m * 10 ^ e10] (ties to even). *)
Definition round_decimal (neg : bool) (m e10 : Z) : float64 :=
  match m with
  | Zpos p =>
      let dp := (ndigits m + e10)%Z in
      if (310 <? dp)%Z then S754_infinity neg
      else if (dp <? -330)%Z then S754_zero neg
      else if (0 <=? e10)%Z then
        binary_normalize prec emax (if neg then - (m * 10 ^ e10) else m * 10 ^ e10)%Z 0%Z neg
      else
        let '(q, e, l) := SFdiv_core_binary prec emax m 0%Z (10 ^ (- e10))%Z 0%Z in
        binary_round_aux prec emax neg q e l
  | _ => S754_zero neg
  end.

(** [ParseFloat(s, 64)] on decimal numbers and the special spellings
    (hexadecimal mantissas and digit separators, which later Go releases
    also read, are a syntax error here as in the Go 1.11 and 1.12 this
    repository builds with). *)
Definition ParseFloat (s : string) : outcome float64 :=
  match special s with
  | Some f => Ok f
  | None =>
      match readFloat s with
      | None => Err (NumError "ParseFloat" s ErrSyntax)
      | Some (neg, m, e10) =>
          match round_decimal neg m e10 with
          | S754_infinity _ => Err (NumError "ParseFloat" s ErrRange)
          | f => Ok f
          end
      end
  end.

Definition pad6 (s : string) : string :=
  String.append (string_of_list_ascii (repeat "0"%char (6 - String.length s))) s.

(** [FormatFloat(f, 'f', 6, 64)]: the exact value rounded to six
    fractional digits, ties to even. *)
Definition FormatFloat (f : float64) : string :=
  let fixed (neg : bool) (n : Z) :=
    String.append (if neg then "-" else "")
      (String.append (FormatInt (n / 1000000))
         (String.append "." (pad6 (FormatInt (n mod 1000000))))) in
  match f with
  | S754_nan => "NaN"
  | S754_infinity false => "+Inf"
  | S754_infinity true => "-Inf"
  | S754_zero neg => fixed neg 0%Z
  | S754_finite neg m e =>
      let num := (Zpos m * 1000000)%Z in
      if (0 <=? e)%Z then fixed neg (num * 2 ^ e)%Z
      else
        let den := (2 ^ (- e))%Z in
        let q := (num / den)%Z in
        let r := (num mod den)%Z in
        let up := (den <? 2 * r)%Z || ((2 * r =? den)%Z && Z.odd q) in
        fixed neg (if up then q + 1 else q)%Z
  end.

End strconv.

(** ** hash/fnv *)

Module fnv.

Definition offset32 : Z := 2166136261%Z.
Definition prime32 : Z := 16777619%Z.

(** [New32] then [Write(data)], FNV-1: multiply (in uint32, so modulo 2^32),
    then xor the byte in. *)
Fixpoint Write (hash : Z) (data : string) : Z :=
  match data with
  | EmptyString => hash
  | String c data' =>
      Write (Z.lxor ((hash * prime32) mod 2 ^ 32) (Z.of_nat (nat_of_ascii c))) data'
  end.

Definition Sum32 (data : string) : Z := Write offset32 data.

End fnv.

(** ** Package rule: values, params and the Params bag *)

Module rule.
Import strconv.

(** [Value] and [Param], with their JSON field [Kind]. *)
Record Value := { Value_Kind : string; Value_Type : string; Value_Data : string }.
Record Param := { Param_Kind : string; Param_Type : string; Param_Name : string }.

#[global] Instance Value_eq_dec : EqDecision Value.
Proof. solve_decision. Defined.
#[global] Instance Param_eq_dec : EqDecision Param.
Proof. solve_decision. Defined.

Definition newValue (typ data : string) : Value :=
  {| Value_Kind := "value"; Value_Type := typ; Value_Data := data |}.

Definition BoolValue (value : bool) : Value := newValue "bool" (FormatBool value).
Definition StringValue (value : string) : Value := newValue "string" value.
Definition Int64Value (value : Z) : Value := newValue "int64" (FormatInt value).
Definition Float64Value (value : float64) : Value := newValue "float64" (FormatFloat value).

Definition StringParam (name : string) : Param :=
  {| Param_Kind := "param"; Param_Type := "string"; Param_Name := name |}.
Definition BoolParam (name : string) : Param :=
  {| Param_Kind := "param"; Param_Type := "bool"; Param_Name := name |}.
Definition Int64Param (name : string) : Param :=
  {| Param_Kind := "param"; Param_Type := "int64"; Param_Name := name |}.

(** The interface [Params], as the record of the getters the evaluation
    calls. A value of interface type is [None] (the nil interface) or holds
    an implementation. *)
Record ParamsImpl := {
  GetString : string -> outcome string;
  GetBool : string -> outcome bool;
  GetInt64 : string -> outcome Z;
  GetFloat64 : string -> outcome float64
}.

Definition Params : Type := option ParamsImpl.

(** A method call through an interface value panics on the nil interface. *)
Definition call {A} (m : ParamsImpl -> string -> outcome A) (params : Params)
  (key : string) : outcome A :=
  match params with
  | None => Panic nil_pointer_dereference
  | Some impl => m impl key
  end.

(** What a bag or a frame holds for a name: a Go value of one of the four
    parameter types. *)
Inductive pval :=
| PString (s : string)
| PBool (b : bool)
| PInt64 (i : Z)
| PFloat64 (f : float64).

(** Modelled from the spec: the host's parameter bag (the map type
    [regula.Params]) is not under src/, only its tests (param_test.go) are.
    Spec 4.A: typed getters returning either the typed value or one of
    ParamNotFound, ParamTypeMismatch. *)
Definition bag_get {A} (proj : pval -> option A) (m : gmap string pval)
  (key : string) : outcome A :=
  match m !! key with
  | None => Err ErrParamNotFound
  | Some v =>
      match proj v with
      | Some a => Ok a
      | None => Err ErrParamTypeMismatch
      end
  end.

Definition as_string (v : pval) : option string :=
  match v with PString s => Some s | _ => None end.
Definition as_bool (v : pval) : option bool :=
  match v with PBool b => Some b | _ => None end.
Definition as_int64 (v : pval) : option Z :=
  match v with PInt64 i => Some i | _ => None end.
Definition as_float64 (v : pval) : option float64 :=
  match v with PFloat64 f => Some f | _ => None end.

Definition bag (m : gmap string pval) : Params :=
  Some {| GetString := bag_get as_string m;
          GetBool := bag_get as_bool m;
          GetInt64 := bag_get as_int64 m;
          GetFloat64 := bag_get as_float64 m |}.

(** Modelled from the spec: the type [stack] and [newStack] are not under
    src/, only their use in control_expr.go is. Spec 4.A, scoping for let:
    a stack params view, where a lookup first checks the local frame, then
    delegates to the parent. A frame holds one name and its value; a getter
    of another type than the value's answers ParamTypeMismatch, as the
    getters of a bag do. A [*stack] is a pointer: [None] is the nil
    pointer, and a method that reads the frame through it panics. *)
Record stack := {
  stack_symbol : string;
  stack_value : pval;
  stack_parent : Params
}.

Definition newStack (symbol : string) (value : pval) (parent : Params) : option stack :=
  Some {| stack_symbol := symbol; stack_value := value; stack_parent := parent |}.

Definition stack_get {A} (proj : pval -> option A)
  (m : ParamsImpl -> string -> outcome A) (s : option stack) (key : string) : outcome A :=
  match s with
  | None => Panic nil_pointer_dereference
  | Some fr =>
      if String.eqb key (stack_symbol fr) then
        match proj (stack_value fr) with
        | Some a => Ok a
        | None => Err ErrParamTypeMismatch
        end
      else call m (stack_parent fr) key
  end.

(** A [*stack] passed where a [Params] is expected: the interface value
    holds the pointer, so it is not the nil interface even when the pointer
    is nil. *)
Definition stack_Params (s : option stack) : Params :=
  Some {| GetString := stack_get as_string GetString s;
          GetBool := stack_get as_bool GetBool s;
          GetInt64 := stack_get as_int64 GetInt64 s;
          GetFloat64 := stack_get as_float64 GetFloat64 s |}.

(** *** Param.Eval and the methods of Value *)

Definition Param_Eval (p : Param) (params : Params) : outcome Value :=
  match params with
  | None => Err (errors_New "params is nil")
  | Some _ =>
      if String.eqb (Param_Type p) "string" then
        v ← call GetString params (Param_Name p); Ok (StringValue v)
      else if String.eqb (Param_Type p) "bool" then
        v ← call GetBool params (Param_Name p); Ok (BoolValue v)
      else if String.eqb (Param_Type p) "int64" then
        v ← call GetInt64 params (Param_Name p); Ok (Int64Value v)
      else if String.eqb (Param_Type p) "float64" then
        v ← call GetFloat64 params (Param_Name p); Ok (Float64Value v)
      else Err (errors_New "unsupported param type")
  end.

Definition Value_Eval (v : Value) (_ : Params) : outcome Value := Ok v.

(** [*v == *other]: the two structs, field by field. *)
Definition Value_Equal (v other : Value) : bool := bool_decide (v = other).

Definition parseBoolValues (v1 v2 : Value) : outcome (bool * bool) :=
  b1 ← ParseBool (Value_Data v1); b2 ← ParseBool (Value_Data v2); Ok (b1, b2).

Definition parseInt64Values (v1 v2 : Value) : outcome (Z * Z) :=
  i1 ← ParseInt (Value_Data v1); i2 ← ParseInt (Value_Data v2); Ok (i1, i2).

Definition parseFloat64Values (v1 v2 : Value) : outcome (float64 * float64) :=
  f1 ← ParseFloat (Value_Data v1); f2 ← ParseFloat (Value_Data v2); Ok (f1, f2).

Definition unknown_Value_type (v : Value) : error :=
  errors_New (String.append "unknown Value type: " (Value_Type v)).

Definition Value_GT (v other : Value) : outcome bool :=
  if String.eqb (Value_Type v) "bool" then
    '(v1, v2) ← parseBoolValues v other;
    if negb v1 then Ok false else if (v2 : bool) then Ok false else Ok true
  else if String.eqb (Value_Type v) "string" then
    if String.leb (Value_Data v) (Value_Data other) then Ok false else Ok true
  else if String.eqb (Value_Type v) "int64" then
    '(v1, v2) ← parseInt64Values v other;
    if (v1 <=? v2)%Z then Ok false else Ok true
  else if String.eqb (Value_Type v) "float64" then
    '(v1, v2) ← parseFloat64Values v other;
    if float64_le v1 v2 then Ok false else Ok true
  else Err (unknown_Value_type v).

Definition Value_GTE (v other : Value) : outcome bool :=
  if String.eqb (Value_Type v) "bool" then
    '(v1, v2) ← parseBoolValues v other;
    if negb v1 && v2 then Ok false else Ok true
  else if String.eqb (Value_Type v) "string" then
    if String.ltb (Value_Data v) (Value_Data other) then Ok false else Ok true
  else if String.eqb (Value_Type v) "int64" then
    '(v1, v2) ← parseInt64Values v other;
    if (v1 <? v2)%Z then Ok false else Ok true
  else if String.eqb (Value_Type v) "float64" then
    '(v1, v2) ← parseFloat64Values v other;
    if float64_lt v1 v2 then Ok false else Ok true
  else Err (unknown_Value_type v).

Definition Value_LT (v other : Value) : outcome bool :=
  if String.eqb (Value_Type v) "bool" then
    '(v1, v2) ← parseBoolValues v other;
    if (v1 : bool) then Ok false else if negb v2 then Ok false else Ok true
  else if String.eqb (Value_Type v) "string" then
    if String.leb (Value_Data other) (Value_Data v) then Ok false else Ok true
  else if String.eqb (Value_Type v) "int64" then
    '(v1, v2) ← parseInt64Values v other;
    if (v2 <=? v1)%Z then Ok false else Ok true
  else if String.eqb (Value_Type v) "float64" then
    '(v1, v2) ← parseFloat64Values v other;
    if float64_le v2 v1 then Ok false else Ok true
  else Err (unknown_Value_type v).

(** In the int64 case a parse error is answered by [false, nil]. *)
Definition Value_LTE (v other : Value) : outcome bool :=
  if String.eqb (Value_Type v) "bool" then
    '(v1, v2) ← parseBoolValues v other;
    if v1 && negb v2 then Ok false else Ok true
  else if String.eqb (Value_Type v) "string" then
    if String.ltb (Value_Data other) (Value_Data v) then Ok false else Ok true
  else if String.eqb (Value_Type v) "int64" then
    match parseInt64Values v other with
    | Ok (v1, v2) => if (v2 <? v1)%Z then Ok false else Ok true
    | Err _ => Ok false
    | Panic p => Panic p
    end
  else if String.eqb (Value_Type v) "float64" then
    '(v1, v2) ← parseFloat64Values v other;
    if float64_lt v2 v1 then Ok false else Ok true
  else Err (unknown_Value_type v).

(** *** Expressions

    An [Expr] is a [*Value], a [*Param], or a pointer to one of the operator
    structs, each of which embeds [operator] (its [kind] and [operands]);
    the struct type decides which [Eval] runs. *)

Inductive exprType :=
| exprNot | exprOr | exprAnd | exprEq | exprIn
| exprGT | exprGTE | exprLT | exprLTE
| exprFNV | exprPercentile | exprLet.

#[global] Instance exprType_eq_dec : EqDecision exprType.
Proof. solve_decision. Defined.

Local Unset Elimination Schemes.
Inductive Expr :=
| EValue (v : Value)
| EParam (p : Param)
| EOp (t : exprType) (kind : string) (operands : list Expr).
Local Set Elimination Schemes.

(** Structural equality of expressions is decidable. *)
Fixpoint Expr_eq_dec (e1 e2 : Expr) {struct e1} : Decision (e1 = e2).
Proof.
  refine
    (match e1, e2 with
     | EValue v1, EValue v2 => cast_if (decide (v1 = v2))
     | EParam p1, EParam p2 => cast_if (decide (p1 = p2))
     | EOp t1 k1 o1, EOp t2 k2 o2 =>
         cast_if_and3 (decide (t1 = t2)) (decide (k1 = k2))
           (@list_eq_dec _ Expr_eq_dec o1 o2)
     | _, _ => right _
     end); congruence.
Defined.
#[global] Existing Instance Expr_eq_dec.

Definition Not (e : Expr) : Expr := EOp exprNot "not" [e].
Definition Or (v1 v2 : Expr) (vN : list Expr) : Expr := EOp exprOr "or" ([v1; v2] ++ vN).
Definition And (v1 v2 : Expr) (vN : list Expr) : Expr := EOp exprAnd "and" ([v1; v2] ++ vN).
Definition Eq (v1 v2 : Expr) (vN : list Expr) : Expr := EOp exprEq "eq" ([v1; v2] ++ vN).
Definition In (v e1 : Expr) (eN : list Expr) : Expr := EOp exprIn "in" ([v; e1] ++ eN).
Definition GT (v1 v2 : Expr) (vN : list Expr) : Expr := EOp exprGT "gt" ([v1; v2] ++ vN).
Definition Percentile (v p : Expr) : Expr := EOp exprPercentile "percentile" [v; p].
Definition True_ : Expr := EValue (BoolValue true).

(** [Let]: three operands pushed on [newExprLet()], whose contract has the
    op code let and three terms of type ANY, which any three operands
    fulfil. The op code stands for the operator's [kind]. *)
Definition Let (parameter value body : Expr) : Expr :=
  EOp exprLet "let" [parameter; value; body].

(** [exprToInt64], from the result of [e.Eval(params)] on. *)
Definition toInt64 (r : outcome Value) : outcome Z :=
  v ← r; ParseInt (Value_Data v).

(** Modelled from the spec: [exprToFloat64] and [exprToBool] are not under
    src/, only their calls in control_expr.go are. They are taken to be
    [exprToInt64] with [strconv.ParseFloat] and [strconv.ParseBool]
    (spec 3: a Value's Data is the lexical encoding of the value). *)
Definition toFloat64 (r : outcome Value) : outcome float64 :=
  v ← r; ParseFloat (Value_Data v).
Definition toBool (r : outcome Value) : outcome bool :=
  v ← r; ParseBool (Value_Data v).

Section Operators.

(** [op.Eval], called through the interface [Expr]. *)
Variable eval : Expr -> Params -> outcome Value.

Definition exprNot_Eval (operands : list Expr) (params : Params) : outcome Value :=
  match operands with
  | [] => Err (errors_New "invalid number of operands in Not func")
  | op :: _ =>
      v ← eval op params;
      if negb (String.eqb (Value_Type v) "bool") then
        Err (errors_New "invalid operand type for Not func")
      else if Value_Equal v (BoolValue true) then Ok (BoolValue false)
      else Ok (BoolValue true)
  end.

(** The loop [for i := 1; i < len(n.operands); i++] of Or, over
    [operands[1:]]. *)
Fixpoint exprOr_loop (operands : list Expr) (params : Params) : outcome Value :=
  match operands with
  | [] => Ok (BoolValue false)
  | op :: rest =>
      vB ← eval op params;
      if negb (String.eqb (Value_Type vB) "bool") then
        Err (errors_New "invalid operand type for Or func")
      else if Value_Equal vB (BoolValue true) then Ok vB
      else exprOr_loop rest params
  end.

Definition exprOr_Eval (operands : list Expr) (params : Params) : outcome Value :=
  match operands with
  | opA :: (_ :: _) as rest =>
      vA ← eval opA params;
      if negb (String.eqb (Value_Type vA) "bool") then
        Err (errors_New "invalid operand type for Or func")
      else if Value_Equal vA (BoolValue true) then Ok vA
      else exprOr_loop rest params
  | _ => Err (errors_New "invalid number of operands in Or func")
  end.

Fixpoint exprAnd_loop (operands : list Expr) (params : Params) : outcome Value :=
  match operands with
  | [] => Ok (BoolValue true)
  | op :: rest =>
      vB ← eval op params;
      if negb (String.eqb (Value_Type vB) "bool") then
        Err (errors_New "invalid operand type for And func")
      else if Value_Equal vB (BoolValue false) then Ok vB
      else exprAnd_loop rest params
  end.

Definition exprAnd_Eval (operands : list Expr) (params : Params) : outcome Value :=
  match operands with
  | opA :: (_ :: _) as rest =>
      vA ← eval opA params;
      if negb (String.eqb (Value_Type vA) "bool") then
        Err (errors_New "invalid operand type for And func")
      else if Value_Equal vA (BoolValue false) then Ok vA
      else exprAnd_loop rest params
  | _ => Err (errors_New "invalid number of operands in And func")
  end.

Fixpoint exprEq_loop (vA : Value) (operands : list Expr) (params : Params) : outcome Value :=
  match operands with
  | [] => Ok (BoolValue true)
  | op :: rest =>
      vB ← eval op params;
      if negb (Value_Equal vA vB) then Ok (BoolValue false)
      else exprEq_loop vA rest params
  end.

Definition exprEq_Eval (operands : list Expr) (params : Params) : outcome Value :=
  match operands with
  | opA :: (_ :: _) as rest =>
      vA ← eval opA params; exprEq_loop vA rest params
  | _ => Err (errors_New "invalid number of operands in Eq func")
  end.

Fixpoint exprIn_loop (vA : Value) (operands : list Expr) (params : Params) : outcome Value :=
  match operands with
  | [] => Ok (BoolValue false)
  | op :: rest =>
      vB ← eval op params;
      if Value_Equal vA vB then Ok (BoolValue true)
      else exprIn_loop vA rest params
  end.

Definition exprIn_Eval (operands : list Expr) (params : Params) : outcome Value :=
  match operands with
  | toFind :: (_ :: _) as rest =>
      vA ← eval toFind params; exprIn_loop vA rest params
  | _ => Err (errors_New "invalid number of operands in In func")
  end.

(** The four comparison operators share one body, up to the method of
    [Value] they call and the name in their messages: operand 0 is compared
    with each later operand in turn. *)
Fixpoint compare_loop (cmp : Value -> Value -> outcome bool) (vA : Value)
  (operands : list Expr) (params : Params) : outcome Value :=
  match operands with
  | [] => Ok (BoolValue true)
  | op :: rest =>
      vB ← eval op params;
      res ← cmp vA vB;
      if negb res then Ok (BoolValue false)
      else compare_loop cmp vA rest params
  end.

Definition compare_Eval (name : string) (cmp : Value -> Value -> outcome bool)
  (operands : list Expr) (params : Params) : outcome Value :=
  match operands with
  | opA :: (_ :: _) as rest =>
      vA ← eval opA params; compare_loop cmp vA rest params
  | _ => Err (errors_New (String.append "invalid number of operands in "
                            (String.append name " func")))
  end.

Definition exprGT_Eval := compare_Eval "GT" Value_GT.
Definition exprGTE_Eval := compare_Eval "GTE" Value_GTE.
Definition exprLT_Eval := compare_Eval "LT" Value_LT.
Definition exprLTE_Eval := compare_Eval "LTE" Value_LTE.

Definition exprFNV_Eval (operands : list Expr) (params : Params) : outcome Value :=
  match operands with
  | [op] =>
      v ← eval op params;
      Ok (Int64Value (fnv.Sum32 (Value_Data v)))
  | _ => Err (errors_New "invalid number of operands in FNV func")
  end.

(** [hash := FNV(n.operands[0])] is evaluated as the FNV node it is. Go's
    [%] is the remainder of the truncated division. *)
Definition exprPercentile_Eval (operands : list Expr) (params : Params) : outcome Value :=
  match operands with
  | [op0; op1] =>
      v ← toInt64 (exprFNV_Eval [op0] params);
      p ← toInt64 (eval op1 params);
      if (Z.rem v 100 <=? p)%Z then Ok (BoolValue true) else Ok (BoolValue false)
  | _ => Err (errors_New "invalid number of operands in Percentile func")
  end.

(** The frame [exprLet.Eval] builds for the symbol: [scopedParams] starts
    as the nil [*stack] and stays so when no case of the switch applies. *)
Definition scope (symb : Param) (val : Value) (params : Params) : outcome (option stack) :=
  if String.eqb (Param_Type symb) "string" then
    Ok (newStack (Param_Name symb) (PString (Value_Data val)) params)
  else if String.eqb (Param_Type symb) "int64" then
    i ← toInt64 (Value_Eval val params);
    Ok (newStack (Param_Name symb) (PInt64 i) params)
  else if String.eqb (Param_Type symb) "float64" then
    f ← toFloat64 (Value_Eval val params);
    Ok (newStack (Param_Name symb) (PFloat64 f) params)
  else if String.eqb (Param_Type symb) "bool" then
    b ← toBool (Value_Eval val params);
    Ok (newStack (Param_Name symb) (PBool b) params)
  else Ok None.

(** [n.operands[i]] panics when there is no such operand, and the type
    assertion of [n.operands[0]] to [*Param] when operand 0 is no [*Param]. *)
Definition exprLet_Eval (operands : list Expr) (params : Params) : outcome Value :=
  match operands with
  | [] => Panic index_out_of_range
  | EParam symb :: operands1 =>
      match operands1 with
      | [] => Panic index_out_of_range
      | value :: operands2 =>
          val ← eval value params;
          scopedParams ← scope symb val params;
          match operands2 with
          | [] => Panic index_out_of_range
          | body :: _ => eval body (stack_Params scopedParams)
          end
      end
  | _ :: _ => Panic interface_conversion
  end.

End Operators.

Fixpoint Eval (e : Expr) (params : Params) {struct e} : outcome Value :=
  match e with
  | EValue v => Value_Eval v params
  | EParam p => Param_Eval p params
  | EOp exprNot _ operands => exprNot_Eval Eval operands params
  | EOp exprOr _ operands => exprOr_Eval Eval operands params
  | EOp exprAnd _ operands => exprAnd_Eval Eval operands params
  | EOp exprEq _ operands => exprEq_Eval Eval operands params
  | EOp exprIn _ operands => exprIn_Eval Eval operands params
  | EOp exprGT _ operands => exprGT_Eval Eval operands params
  | EOp exprGTE _ operands => exprGTE_Eval Eval operands params
  | EOp exprLT _ operands => exprLT_Eval Eval operands params
  | EOp exprLTE _ operands => exprLTE_Eval Eval operands params
  | EOp exprFNV _ operands => exprFNV_Eval Eval operands params
  | EOp exprPercentile _ operands => exprPercentile_Eval Eval operands params
  | EOp exprLet _ operands => exprLet_Eval Eval operands params
  end.

Definition exprToInt64 (e : Expr) (params : Params) : outcome Z :=
  toInt64 (Eval e params).

(** *** walk

    [fn] is a Go closure: beside the error it returns, it may change what
    it has captured, the state [St] here. Only the operator structs have
    the method [Operands] (a [*Value] and a [*Param] are no [operander]). *)
Section Walk.

Context {St : Type}.
Variable fn : Expr -> St -> option error * St.

Section Operands.

Variable walk : Expr -> St -> option error * St.

(** The loop [for _, op := range ops] of [walk]. *)
Fixpoint walk_operands (ops : list Expr) (st : St) : option error * St :=
  match ops with
  | [] => (None, st)
  | op :: rest =>
      match walk op st with
      | (Some err, st') => (Some err, st')
      | (None, st') => walk_operands rest st'
      end
  end.

End Operands.

Fixpoint walk (expr : Expr) (st : St) {struct expr} : option error * St :=
  match fn expr st with
  | (Some err, st') => (Some err, st')
  | (None, st') =>
      match expr with
      | EOp _ _ operands => walk_operands walk operands st'
      | _ => (None, st')
      end
  end.

End Walk.

(** The nodes of an expression, each before its operands, the operands
    from left to right. *)
Fixpoint preorder (e : Expr) : list Expr :=
  e :: match e with
       | EOp _ _ operands => flat_map preorder operands
       | _ => []
       end.

(** A closure called on the expressions of a list in turn, up to the first
    error it returns. *)
Fixpoint calls {St : Type} (fn : Expr -> St -> option error * St)
  (l : list Expr) (st : St) : option error * St :=
  match l with
  | [] => (None, st)
  | e :: rest =>
      match fn e st with
      | (Some err, st') => (Some err, st')
      | (None, st') => calls fn rest st'
      end
  end.

(** The number of operands an operator's [Eval] asks for before it
    evaluates any: at least one for Not (which reads operand 0 only), at
    least two for the variadic operators, exactly one for FNV and exactly
    two for Percentile. [exprLet.Eval] does not check. *)
Definition arity_ok (t : exprType) (n : nat) : bool :=
  match t with
  | exprNot => (1 <=? n)%nat
  | exprFNV => (n =? 1)%nat
  | exprPercentile => (n =? 2)%nat
  | exprLet => true
  | _ => (2 <=? n)%nat
  end.

End rule.

(** ** Package rule: the JSON form (json.go)

    [encoding/json] is modelled on JSON documents rather than on their
    bytes: [json.Marshal] builds a document and [json.Unmarshal] reads one. *)

Module json.
Import strconv rule.

Local Unset Elimination Schemes.
Inductive json :=
| JNull
| JBool (b : bool)
| JNumber (literal : string)
| JString (s : string)
| JArray (elems : list json)
| JObject (members : list (string * json)).
Local Set Elimination Schemes.

Definition UnmarshalTypeError : error := errors_New "json: cannot unmarshal".

(** [*Value] and [*Param] marshal as structs with their field tags; an
    operator through [operator.MarshalJSON] (a nil slice of operands, which
    is what an operator without operands holds, marshals as null). *)
Fixpoint MarshalJSON (e : Expr) : json :=
  match e with
  | EValue v =>
      JObject [("kind", JString (Value_Kind v)); ("type", JString (Value_Type v));
               ("data", JString (Value_Data v))]
  | EParam p =>
      JObject [("kind", JString (Param_Kind p)); ("type", JString (Param_Type p));
               ("name", JString (Param_Name p))]
  | EOp _ kind operands =>
      JObject [("kind", JString kind);
               ("operands", match operands with
                            | [] => JNull
                            | _ => JArray (map MarshalJSON operands)
                            end)]
  end.

(** A key of an object names a struct field when the two are equal up to
    the case of their (ASCII) letters. *)
Definition names (key field : string) : bool := String.eqb (to_lower key) field.

(** A JSON value stored into a string field: a string is stored, null
    leaves the field as it is, anything else is a type error, which
    [json.Unmarshal] reports once the whole document is read. *)
Definition store_string (cur : string) (err : option error) (j : json)
  : string * option error :=
  match j with
  | JString s => (s, err)
  | JNull => (cur, err)
  | _ => (cur, Some (default UnmarshalTypeError err))
  end.

Fixpoint Value_members (members : list (string * json)) (v : Value)
  (err : option error) : Value * option error :=
  match members with
  | [] => (v, err)
  | (key, j) :: rest =>
      if names key "kind" then
        let '(s, err) := store_string (Value_Kind v) err j in
        Value_members rest {| Value_Kind := s; Value_Type := Value_Type v;
                              Value_Data := Value_Data v |} err
      else if names key "type" then
        let '(s, err) := store_string (Value_Type v) err j in
        Value_members rest {| Value_Kind := Value_Kind v; Value_Type := s;
                              Value_Data := Value_Data v |} err
      else if names key "data" then
        let '(s, err) := store_string (Value_Data v) err j in
        Value_members rest {| Value_Kind := Value_Kind v; Value_Type := Value_Type v;
                              Value_Data := s |} err
      else Value_members rest v err
  end.

(** [json.Unmarshal(data, &v)] for [var v Value]. *)
Definition Unmarshal_Value (data : json) : outcome Value :=
  let zero := {| Value_Kind := ""; Value_Type := ""; Value_Data := "" |} in
  match data with
  | JObject members =>
      match Value_members members zero None with
      | (v, None) => Ok v
      | (_, Some e) => Err e
      end
  | JNull => Ok zero
  | _ => Err UnmarshalTypeError
  end.

Fixpoint Param_members (members : list (string * json)) (p : Param)
  (err : option error) : Param * option error :=
  match members with
  | [] => (p, err)
  | (key, j) :: rest =>
      if names key "kind" then
        let '(s, err) := store_string (Param_Kind p) err j in
        Param_members rest {| Param_Kind := s; Param_Type := Param_Type p;
                              Param_Name := Param_Name p |} err
      else if names key "type" then
        let '(s, err) := store_string (Param_Type p) err j in
        Param_members rest {| Param_Kind := Param_Kind p; Param_Type := s;
                              Param_Name := Param_Name p |} err
      else if names key "name" then
        let '(s, err) := store_string (Param_Name p) err j in
        Param_members rest {| Param_Kind := Param_Kind p; Param_Type := Param_Type p;
                              Param_Name := s |} err
      else Param_members rest p err
  end.

(** [json.Unmarshal(data, &p)] for [var p Param]. *)
Definition Unmarshal_Param (data : json) : outcome Param :=
  let zero := {| Param_Kind := ""; Param_Type := ""; Param_Name := "" |} in
  match data with
  | JObject members =>
      match Param_members members zero None with
      | (p, None) => Ok p
      | (_, Some e) => Err e
      end
  | JNull => Ok zero
  | _ => Err UnmarshalTypeError
  end.

(** [gjson.Get(json, "kind").Str]: the string under the first key kind of
    an object, the empty string when there is none. *)
Fixpoint gjson_kind_members (members : list (string * json)) : string :=
  match members with
  | [] => ""
  | (key, j) :: rest =>
      if String.eqb key "kind" then
        match j with JString s => s | _ => "" end
      else gjson_kind_members rest
  end.

Definition gjson_kind (data : json) : string :=
  match data with
  | JObject members => gjson_kind_members members
  | _ => ""
  end.

(** The operator struct a kind of the switch of [unmarshalExpr] declares. *)
Definition operator_of_kind (kind : string) : option exprType :=
  if String.eqb kind "eq" then Some exprEq
  else if String.eqb kind "in" then Some exprIn
  else if String.eqb kind "not" then Some exprNot
  else if String.eqb kind "and" then Some exprAnd
  else if String.eqb kind "or" then Some exprOr
  else if String.eqb kind "gt" then Some exprGT
  else if String.eqb kind "gte" then Some exprGTE
  else if String.eqb kind "percentile" then Some exprPercentile
  else if String.eqb kind "fnv" then Some exprFNV
  else if String.eqb kind "lt" then Some exprLT
  else if String.eqb kind "lte" then Some exprLTE
  else None.

Section Operands.

Variable unmarshalExpr : string -> json -> outcome Expr.

(** The loop of [operands.UnmarshalJSON] over [o.Ops]. *)
Fixpoint operands_loop (Ops : list json) : outcome (list Expr) :=
  match Ops with
  | [] => Ok []
  | op :: rest =>
      n ← unmarshalExpr (gjson_kind op) op;
      ns ← operands_loop rest;
      Ok (n :: ns)
  end.

(** [operands.UnmarshalJSON]: the array is read into [o.Ops], and the
    operands it decodes to are appended to [o.Exprs]. *)
Definition operands_UnmarshalJSON (Exprs : list Expr) (data : json) : outcome (list Expr) :=
  match data with
  | JArray Ops => ns ← operands_loop Ops; Ok (Exprs ++ ns)%list
  | JNull => Ok Exprs
  | _ => Err UnmarshalTypeError
  end.

Fixpoint operator_members (members : list (string * json)) (Kind : string)
  (Exprs : list Expr) (err : option error) : outcome (string * list Expr * option error) :=
  match members with
  | [] => Ok (Kind, Exprs, err)
  | (key, j) :: rest =>
      if names key "kind" then
        let '(s, err) := store_string Kind err j in
        operator_members rest s Exprs err
      else if names key "operands" then
        Exprs' ← operands_UnmarshalJSON Exprs j;
        operator_members rest Kind Exprs' err
      else operator_members rest Kind Exprs err
  end.

(** [operator.UnmarshalJSON]: the [kind] and the [operands] it sets. *)
Definition operator_UnmarshalJSON (data : json) : outcome (string * list Expr) :=
  match data with
  | JObject members =>
      r ← operator_members members "" [] None;
      match r with
      | (Kind, Exprs, None) => Ok (Kind, Exprs)
      | (_, _, Some e) => Err e
      end
  | JNull => Ok ("", [])
  | _ => Err UnmarshalTypeError
  end.

End Operands.

Fixpoint unmarshalExpr (kind : string) (data : json) {struct data} : outcome Expr :=
  if String.eqb kind "value" then v ← Unmarshal_Value data; Ok (EValue v)
  else if String.eqb kind "param" then p ← Unmarshal_Param data; Ok (EParam p)
  else
    match operator_of_kind kind with
    | Some t =>
        r ← operator_UnmarshalJSON unmarshalExpr data;
        Ok (EOp t r.1 r.2)
    | None => Err (errors_New (String.append "unknown expression kind " kind))
    end.

(** An expression is decoded by its kind, as each operand is. *)
Definition Unmarshal (data : json) : outcome Expr :=
  unmarshalExpr (gjson_kind data) data.

(** The expressions that [unmarshalExpr] has a case for: Values and Params
    with the Kind their constructors give them, and operators of the eleven
    kinds of its switch, over at least one operand. *)
Fixpoint decodable (e : Expr) : Prop :=
  match e with
  | EValue v => Value_Kind v = "value"
  | EParam p => Param_Kind p = "param"
  | EOp t kind operands =>
      operator_of_kind kind = Some t /\ operands <> [] /\
      (fix all (l : list Expr) : Prop :=
         match l with
         | [] => True
         | x :: r => decodable x /\ all r
         end) operands
  end.

End json.

(** ** The ruleset service and its HTTP API (package server) *)

Module server.
Import strconv rule.

Record Rule := { Rule_Expr : Expr; Rule_Result : Value }.

#[global] Instance Rule_eq_dec : EqDecision Rule.
Proof. solve_decision. Defined.

Record Signature := { ParamTypes : gmap string string; ReturnType : string }.

Record RulesetVersion := { Version : string; Rules : list Rule }.

Record Ruleset := {
  Path : string;
  Signature_ : option Signature;
  Versions : list RulesetVersion
}.

Record RulesetEvent := {
  Event_Type : string;
  Event_Path : string;
  Event_Version : string;
  Event_Rules : list Rule
}.

Record RulesetEvents := {
  Events : list RulesetEvent;
  Revision : string;
  Timeout : bool
}.

(** The interface [api.RulesetService], as far as the handlers below call
    it, over the state [S] of the store behind it. A Go method returns its
    value and its error side by side: [None] is the nil error, and [None]
    is the nil pointer too. *)
Record RulesetService (S : Type) := {
  Put : S -> string -> list Rule -> string * option error * S;
  Get : S -> string -> string -> option Ruleset * option error;
  Watch : S -> list string -> Z -> option RulesetEvents * option error
}.
Arguments Put {S}.
Arguments Get {S}.
Arguments Watch {S}.

Definition StatusOK : Z := 200%Z.
Definition StatusNoContent : Z := 204%Z.
Definition StatusBadRequest : Z := 400%Z.
Definition StatusInternalServerError : Z := 500%Z.

(** What a handler writes: [writeError(w, r, err, code)] or
    [reghttp.EncodeJSON(w, r, v, status)]. *)
Inductive body :=
| ErrorBody (err : error)
| RulesetBody (rs : option Ruleset)
| EventsBody (events : option RulesetEvents).

Record Response := { StatusCode : Z; Body : body }.

Definition writeError (err : error) (code : Z) : Response :=
  {| StatusCode := code; Body := ErrorBody err |}.

Definition EncodeJSON (v : body) (status : Z) : Response :=
  {| StatusCode := status; Body := v |}.

Definition IsValidationError (err : error) : bool :=
  match err with ValidationError _ => true | _ => false end.

(** A watch request: the length of its body, what decoding the body into
    [paths] gives, and the query parameter revision. *)
Record WatchRequest := {
  ContentLength : Z;
  Decode_paths : list string * option error;
  Query_revision : string
}.

Section Handlers.

Context {S : Type}.
Variable rulesets : RulesetService S.

(** [rulesetAPI.put]; [decoded] is what decoding the request body into
    [rules] gives. *)
Definition put (st : S) (path : string) (decoded : list Rule * option error)
  : Response * S :=
  match decoded with
  | (_, Some err) => (writeError err StatusBadRequest, st)
  | (rules, None) =>
      let '(version, err, st') := Put rulesets st path rules in
      let read_back :=
        match Get rulesets st' path version with
        | (_, Some err) => writeError err StatusInternalServerError
        | (rs, None) => EncodeJSON (RulesetBody rs) StatusOK
        end in
      match err with
      | Some err =>
          if IsValidationError err then (writeError err StatusBadRequest, st')
          else if negb (bool_decide (err = ErrRulesetNotModified)) then
            (writeError err StatusInternalServerError, st')
          else (read_back, st')
      | None => (read_back, st')
      end
  end.

(** [rulesetAPI.watch]. *)
Definition watch (st : S) (r : WatchRequest) : Response :=
  let decoded :=
    if (0 <? ContentLength r)%Z then Decode_paths r else ([], None) in
  match decoded with
  | (_, Some err) => writeError err StatusBadRequest
  | (paths, None) =>
      let parsed :=
        if String.eqb (Query_revision r) "" then Ok (-1)%Z
        else ParseInt (Query_revision r) in
      match parsed with
      | Ok rev =>
          let '(events, err) := Watch rulesets st paths rev in
          match err with
          | Some context_Canceled => EncodeJSON (EventsBody events) StatusOK
          | Some context_DeadlineExceeded => EncodeJSON (EventsBody events) StatusOK
          | Some err => writeError err StatusInternalServerError
          | None => EncodeJSON (EventsBody events) StatusOK
          end
      | Err err => writeError err StatusBadRequest
      | Panic _ => writeError (errors_New "panic") StatusInternalServerError
      end
  end.

End Handlers.

(** Modelled from the spec: the store behind the service (package
    api/etcd) is not under src/, only its path test is. Spec 3 and 4.D: a
    ruleset is a path, a signature and an ordered list of versions, the
    latest being the last; put answers RulesetNotFound for an unknown path,
    the validation error if the rules do not fit the signature, NotModified
    without writing if the proposed rule list is structurally equal to the
    current latest, and otherwise appends a version under a fresh id (the
    store revision, rendered as a string); get returns the snapshot of a
    path, of its latest version when the version asked for is empty. *)
Record store := { rulesets_ : gmap string Ruleset; revision : Z }.

Definition latest (rs : Ruleset) : option RulesetVersion := last (Versions rs).

Section Store.

(** The validation of rules against a signature (spec 4.D, steps 1 and 2). *)
Variable validate : option Signature -> list Rule -> option error.

Definition store_Put (st : store) (path : string) (rules : list Rule)
  : string * option error * store :=
  match rulesets_ st !! path with
  | None => ("", Some ErrRulesetNotFound, st)
  | Some rs =>
      match validate (Signature_ rs) rules with
      | Some err => ("", Some err, st)
      | None =>
          if bool_decide (Rules <$> latest rs = Some rules) then
            ("", Some ErrRulesetNotModified, st)
          else
            let version := FormatInt (revision st + 1) in
            let rs' := {| Path := Path rs; Signature_ := Signature_ rs;
                          Versions := Versions rs ++
                            [{| Version := version; Rules := rules |}] |} in
            (version, None,
             {| rulesets_ := <[path := rs']> (rulesets_ st);
                revision := (revision st + 1)%Z |})
      end
  end.

Definition store_Get (st : store) (path version : string)
  : option Ruleset * option error :=
  match rulesets_ st !! path with
  | None => (None, Some ErrRulesetNotFound)
  | Some rs =>
      if String.eqb version "" then (Some rs, None)
      else if existsb (fun v => String.eqb (Version v) version) (Versions rs) then
        (Some rs, None)
      else (None, Some ErrRulesetNotFound)
  end.

Definition store_service
  (watch : store -> list string -> Z -> option RulesetEvents * option error)
  : RulesetService store :=
  {| Put := store_Put; Get := store_Get; Watch := watch |}.

End Store.

End server.

(** * Properties *)

Import strconv fnv rule.

(** ** strconv: a printed int64 reads back *)

Section strconv_facts.
Local Open Scope Z_scope.

Lemma maxUint64_eq : maxUint64 = 18446744073709551615.
Proof. reflexivity. Qed.

Lemma of_uint_acc_ge d acc : Z.pos acc <= Z.pos (Pos.of_uint_acc d acc).
Proof.
  revert acc; induction d; intros acc; simpl; try lia;
    (etransitivity; [|apply IHd]); lia.
Qed.

Ltac eval_digit :=
  repeat match goal with
  | |- context [is_digit ?c] =>
      let b := eval vm_compute in (is_digit c) in change (is_digit c) with b
  | |- context [digit_val ?c] =>
      let z := eval vm_compute in (digit_val c) in change (digit_val c) with z
  end; cbn [negb].

Ltac loop_step IH :=
  eval_digit;
  rewrite ?maxUint64_eq in *;
  change (18446744073709551615 `div` 10 + 1) with 1844674407370955162;
  match goal with
  | |- context [?x <=? ?y] => destruct (Z.leb_spec x y); [lia|]
  end;
  match goal with
  | |- context [?x <? ?y] => destruct (Z.ltb_spec x y); [lia|]
  end.

Lemma ParseUint_loop_acc d acc :
  Z.pos (Pos.of_uint_acc d acc) <= maxUint64 ->
  ParseUint_loop (NilEmpty.string_of_uint d) (Z.pos acc)
  = (Z.pos (Pos.of_uint_acc d acc), None).
Proof.
  revert acc; induction d; intros acc Hmax;
    cbn [NilEmpty.string_of_uint Pos.of_uint_acc ParseUint_loop] in *;
    [reflexivity|..];
    match type of Hmax with
    | Z.pos (Pos.of_uint_acc d ?a) <= _ =>
        pose proof (of_uint_acc_ge d a) as Hge;
        pose proof (IHd a Hmax) as IH;
        loop_step IH; rewrite <- IH; f_equal; lia
    end.
Qed.

Lemma ParseUint_loop_of_uint d :
  Z.of_N (Pos.of_uint d) <= maxUint64 ->
  ParseUint_loop (NilEmpty.string_of_uint d) 0 = (Z.of_N (Pos.of_uint d), None).
Proof.
  induction d; intros Hmax;
    cbn [NilEmpty.string_of_uint Pos.of_uint ParseUint_loop Z.of_N] in *;
    [reflexivity | loop_step IHd; apply IHd; lia | ..];
    match type of Hmax with
    | Z.pos (Pos.of_uint_acc d ?a) <= _ =>
        pose proof (of_uint_acc_ge d a) as Hge;
        pose proof (ParseUint_loop_acc d a Hmax) as IH;
        loop_step IH; rewrite <- IH; f_equal
    end.
Qed.

(** Printing an int64 and reading it back gives the number. *)
Lemma ParseInt_FormatInt z :
  - 2 ^ 63 <= z < 2 ^ 63 -> ParseInt (FormatInt z) = Ok z.
Proof.
  intros Hz. unfold FormatInt. destruct z as [|p|p]; [reflexivity| |].
  - cbn [Z.to_int NilZero.string_of_int].
    pose proof (Unsigned.of_to p) as Hp.
    pose proof (Unsigned.to_uint_nonnil p) as Hnil.
    assert (Hl : ParseUint_loop (NilEmpty.string_of_uint (Pos.to_uint p)) 0
                 = (Z.pos p, None)).
    { rewrite ParseUint_loop_of_uint; rewrite Hp; [reflexivity|].
      rewrite maxUint64_eq. cbn [Z.of_N]. lia. }
    destruct (Pos.to_uint p) as [|d|d|d|d|d|d|d|d|d|d]; [congruence|..];
      unfold ParseInt, ParseUint, NilZero.string_of_uint;
      cbn [NilEmpty.string_of_uint Ascii.eqb Bool.eqb orb] in *;
      rewrite Hl;
      (destruct (Z.leb_spec (2 ^ 63) (Z.pos p)); [lia|reflexivity]).
  - cbn [Z.to_int NilZero.string_of_int].
    pose proof (Unsigned.of_to p) as Hp.
    pose proof (Unsigned.to_uint_nonnil p) as Hnil.
    assert (Hl : ParseUint_loop (NilEmpty.string_of_uint (Pos.to_uint p)) 0
                 = (Z.pos p, None)).
    { rewrite ParseUint_loop_of_uint; rewrite Hp; [reflexivity|].
      rewrite maxUint64_eq. cbn [Z.of_N]. lia. }
    destruct (Pos.to_uint p) as [|d|d|d|d|d|d|d|d|d|d]; [congruence|..];
      unfold ParseInt, ParseUint, NilZero.string_of_uint;
      cbn [NilEmpty.string_of_uint Ascii.eqb Bool.eqb orb] in *;
      rewrite Hl;
      (destruct (Z.ltb_spec (2 ^ 63) (Z.pos p)); [lia|reflexivity]).
Qed.
End strconv_facts.

(** ** Values: equality and order *)

Lemma Value_Equal_eq v w : Value_Equal v w = true <-> v = w.
Proof. unfold Value_Equal. apply bool_decide_eq_true. Qed.

Lemma Value_Equal_neq v w : Value_Equal v w = false <-> v <> w.
Proof. unfold Value_Equal. apply bool_decide_eq_false. Qed.

(** C3 (amended): [Value.Equal] returns true if and only if the two Values
    agree on all three fields of the struct, Kind, Type and Data. *)
Theorem Value_Equal_fields v w :
  Value_Equal v w = true <->
  Value_Kind v = Value_Kind w /\ Value_Type v = Value_Type w /\
  Value_Data v = Value_Data w.
Proof.
  rewrite Value_Equal_eq. split.
  - intros ->. auto.
  - destruct v, w; simpl. intros (-> & -> & ->). reflexivity.
Qed.

(** C3, as stated, fails: the Value literal of the repository's engine test
    (no Kind) and [BoolValue(true)] have the same Type and the same Data,
    and are not Equal. *)
Lemma Value_Equal_reads_Kind :
  Value_Type {| Value_Kind := ""; Value_Type := "bool"; Value_Data := "true" |}
  = Value_Type (BoolValue true) /\
  Value_Data {| Value_Kind := ""; Value_Type := "bool"; Value_Data := "true" |}
  = Value_Data (BoolValue true) /\
  Value_Equal {| Value_Kind := ""; Value_Type := "bool"; Value_Data := "true" |}
    (BoolValue true) = false.
Proof. repeat split. Qed.

Lemma parseInt64Values_Err v other e :
  parseInt64Values v other = Err e <->
  ParseInt (Value_Data v) = Err e \/
  (exists i, ParseInt (Value_Data v) = Ok i /\ ParseInt (Value_Data other) = Err e).
Proof.
  unfold parseInt64Values.
  destruct (ParseInt (Value_Data v)) as [i| |] eqn:E1; simpl;
    [destruct (ParseInt (Value_Data other)) as [j| |] eqn:E2; simpl|..];
    (split;
     [intros H; try discriminate H; try (injection H as ->); eauto
     |intros [H|(x & H1 & H2)]; congruence]).
Qed.

(** C9: when the Data of an int64 Value, or of the Value it is compared
    with, does not parse as an int64, [LTE] answers (false, nil), and [GT],
    [GTE] and [LT] return the parse error. *)
Theorem LTE_swallows_int64_parse_error v other e :
  Value_Type v = "int64" ->
  parseInt64Values v other = Err e ->
  Value_LTE v other = Ok false /\
  Value_GT v other = Err e /\ Value_GTE v other = Err e /\ Value_LT v other = Err e.
Proof.
  intros Ht He. unfold Value_LTE, Value_GT, Value_GTE, Value_LT.
  rewrite Ht, He. simpl. auto.
Qed.

Lemma LTE_swallows_int64_parse_error_witness :
  Value_Type (newValue "int64" "ten") = "int64" /\
  parseInt64Values (newValue "int64" "ten") (Int64Value 10)
  = Err (NumError "ParseInt" "ten" ErrSyntax) /\
  Value_LTE (newValue "int64" "ten") (Int64Value 10) = Ok false /\
  Value_GT (newValue "int64" "ten") (Int64Value 10)
  = Err (NumError "ParseInt" "ten" ErrSyntax) /\
  Value_GTE (newValue "int64" "ten") (Int64Value 10)
  = Err (NumError "ParseInt" "ten" ErrSyntax) /\
  Value_LT (newValue "int64" "ten") (Int64Value 10)
  = Err (NumError "ParseInt" "ten" ErrSyntax).
Proof.
  split; [reflexivity|]. split; [reflexivity|].
  apply (LTE_swallows_int64_parse_error (newValue "int64" "ten") (Int64Value 10)
           (NumError "ParseInt" "ten" ErrSyntax)); reflexivity.
Defined.

(** The type tag of the right-hand Value is never read by a comparison. *)
Lemma comparison_ignores_other_Type v w ty :
  let w' := {| Value_Kind := Value_Kind w; Value_Type := ty;
               Value_Data := Value_Data w |} in
  Value_GT v w' = Value_GT v w /\ Value_GTE v w' = Value_GTE v w /\
  Value_LT v w' = Value_LT v w /\ Value_LTE v w' = Value_LTE v w.
Proof. repeat split. Qed.

Lemma comparison_string v w :
  Value_Type v = "string" ->
  (exists r, Value_GT v w = Ok r) /\ (exists r, Value_GTE v w = Ok r) /\
  (exists r, Value_LT v w = Ok r) /\ (exists r, Value_LTE v w = Ok r).
Proof.
  intros Ht. unfold Value_GT, Value_GTE, Value_LT, Value_LTE. rewrite Ht. simpl.
  repeat split;
    match goal with |- context [if ?c then _ else _] => destruct c end; eauto.
Qed.

Lemma compare_Eval_binary name cmp a b params v w :
  Eval a params = Ok v -> Eval b params = Ok w ->
  compare_Eval Eval name cmp [a; b] params = (res ← cmp v w; Ok (BoolValue res)).
Proof.
  intros Ha Hb. simpl. rewrite Ha. simpl. rewrite Hb. simpl.
  destruct (cmp v w) as [[]| |]; reflexivity.
Qed.

(** C1 (amended): a gt, gte, lt or lte node over two operands that evaluate
    to the Values v and w returns what the method of v returns on w, as a
    bool Value. That method is chosen by the Type of v alone: the Type of w
    is never read (w may carry any tag), its Data is read under the Type of
    v; and when the Type of v is string the result is always a bool Value. *)
Theorem comparison_reads_operand0_type t cmp kind a b params v w :
  (t, cmp) ∈ [(exprGT, Value_GT); (exprGTE, Value_GTE);
              (exprLT, Value_LT); (exprLTE, Value_LTE)] ->
  Eval a params = Ok v -> Eval b params = Ok w ->
  Eval (EOp t kind [a; b]) params = (res ← cmp v w; Ok (BoolValue res)) /\
  (forall ty, cmp v {| Value_Kind := Value_Kind w; Value_Type := ty;
                       Value_Data := Value_Data w |} = cmp v w) /\
  (Value_Type v = "string" ->
   exists res, Eval (EOp t kind [a; b]) params = Ok (BoolValue res)).
Proof.
  intros Ht Ha Hb.
  assert (HE : Eval (EOp t kind [a; b]) params = (res ← cmp v w; Ok (BoolValue res))).
  { repeat (apply elem_of_cons in Ht as [[= -> ->]|Ht]);
      [..|by apply elem_of_nil in Ht];
      cbn [Eval]; unfold exprGT_Eval, exprGTE_Eval, exprLT_Eval, exprLTE_Eval;
      eapply compare_Eval_binary; eauto. }
  split; [exact HE|]. split.
  - intros ty. pose proof (comparison_ignores_other_Type v w ty) as (?&?&?&?).
    repeat (apply elem_of_cons in Ht as [[= -> ->]|Ht]);
      [..|by apply elem_of_nil in Ht]; assumption.
  - intros Hs. rewrite HE.
    pose proof (comparison_string v w Hs) as ([r1 H1]&[r2 H2]&[r3 H3]&[r4 H4]).
    repeat (apply elem_of_cons in Ht as [[= -> ->]|Ht]);
      [..|by apply elem_of_nil in Ht];
      [rewrite H1|rewrite H2|rewrite H3|rewrite H4]; simpl; eauto.
Qed.

Lemma comparison_reads_operand0_type_witness :
  Eval (EValue (StringValue "b")) None = Ok (StringValue "b") /\
  Eval (EValue (Int64Value 1)) None = Ok (Int64Value 1) /\
  Eval (GT (EValue (StringValue "b")) (EValue (Int64Value 1)) []) None
  = Ok (BoolValue true).
Proof.
  split; [reflexivity|]. split; [reflexivity|].
  apply (comparison_reads_operand0_type exprGT Value_GT "gt"
           (EValue (StringValue "b")) (EValue (Int64Value 1)) None
           (StringValue "b") (Int64Value 1)).
  - apply list_elem_of_here.
  - reflexivity.
  - reflexivity.
Defined.

(** C1, as stated, fails (scenario S4 of the spec): age is the int64 5, the
    other operand the string 10; the node returns the bool Value false, and
    no error. *)
Lemma gt_int64_string_returns_bool :
  Eval (EParam (Int64Param "age")) (bag {["age" := PInt64 5]}) = Ok (Int64Value 5) /\
  Eval (EValue (StringValue "10")) (bag {["age" := PInt64 5]}) = Ok (StringValue "10") /\
  Value_Type (Int64Value 5) <> Value_Type (StringValue "10") /\
  Eval (GT (EParam (Int64Param "age")) (EValue (StringValue "10")) [])
    (bag {["age" := PInt64 5]}) = Ok (BoolValue false).
Proof. repeat split. discriminate. Qed.

(** ** And, Or: short circuit *)

Section ShortCircuit.

Variable params : Params.

(** An operand that does not decide an Or ([b] true) or an And ([b] false):
    it evaluates to a bool Value that is not [BoolValue(b)]. *)
Local Abbreviation passes b :=
  (fun e => exists u, Eval e params = Ok u /\ Value_Type u = "bool" /\
                      Value_Equal u (BoolValue b) = false).

Lemma exprOr_loop_decides pre d post v :
  Forall (passes true) pre ->
  Eval d params = Ok v -> Value_Equal v (BoolValue true) = true ->
  exprOr_loop Eval (pre ++ d :: post) params = Ok v.
Proof.
  intros Hpre Hd Hv. induction Hpre as [|e pre (u & He & Ht & Hu) _ IH]; simpl.
  - rewrite Hd. simpl. rewrite Hv.
    apply Value_Equal_eq in Hv as ->. reflexivity.
  - rewrite He. simpl. rewrite Ht, Hu. simpl. exact IH.
Qed.

Lemma exprOr_loop_none operands :
  Forall (passes true) operands ->
  exprOr_loop Eval operands params = Ok (BoolValue false).
Proof.
  induction 1 as [|e l (u & He & Ht & Hu) _ IH]; simpl; [reflexivity|].
  rewrite He. simpl. rewrite Ht, Hu. simpl. exact IH.
Qed.

Lemma exprAnd_loop_decides pre d post v :
  Forall (passes false) pre ->
  Eval d params = Ok v -> Value_Equal v (BoolValue false) = true ->
  exprAnd_loop Eval (pre ++ d :: post) params = Ok v.
Proof.
  intros Hpre Hd Hv. induction Hpre as [|e pre (u & He & Ht & Hu) _ IH]; simpl.
  - rewrite Hd. simpl. rewrite Hv.
    apply Value_Equal_eq in Hv as ->. reflexivity.
  - rewrite He. simpl. rewrite Ht, Hu. simpl. exact IH.
Qed.

Lemma exprAnd_loop_none operands :
  Forall (passes false) operands ->
  exprAnd_loop Eval operands params = Ok (BoolValue true).
Proof.
  induction 1 as [|e l (u & He & Ht & Hu) _ IH]; simpl; [reflexivity|].
  rewrite He. simpl. rewrite Ht, Hu. simpl. exact IH.
Qed.

(** [Eval] of an Or or And node of at least two operands is its loop run
    from operand 0. *)
Lemma exprOr_Eval_loop operands :
  2 <= length operands ->
  exprOr_Eval Eval operands params = exprOr_loop Eval operands params.
Proof. destruct operands as [|a [|b l]]; simpl; [lia..|reflexivity]. Qed.

Lemma exprAnd_Eval_loop operands :
  2 <= length operands ->
  exprAnd_Eval Eval operands params = exprAnd_loop Eval operands params.
Proof. destruct operands as [|a [|b l]]; simpl; [lia..|reflexivity]. Qed.

(** C4: an Or node ([b] true) or an And node ([b] false) of at least two
    operands returns the Value of the first operand that evaluates to
    [BoolValue(b)], whatever the operands after it are: they are not
    evaluated, so none of them can make the node fail. When every operand
    evaluates to a bool Value other than [BoolValue(b)], the node returns
    [BoolValue(not b)]. *)
Theorem and_or_short_circuit t b kind :
  (t, b) ∈ [(exprOr, true); (exprAnd, false)] ->
  (forall pre d post v,
     2 <= length (pre ++ d :: post) ->
     Forall (fun e => exists u, Eval e params = Ok u /\ Value_Type u = "bool" /\
                                Value_Equal u (BoolValue b) = false) pre ->
     Eval d params = Ok v -> Value_Equal v (BoolValue b) = true ->
     Eval (EOp t kind (pre ++ d :: post)) params = Ok v) /\
  (forall operands,
     2 <= length operands ->
     Forall (fun e => exists u, Eval e params = Ok u /\ Value_Type u = "bool" /\
                                Value_Equal u (BoolValue b) = false) operands ->
     Eval (EOp t kind operands) params = Ok (BoolValue (negb b))).
Proof.
  intros Ht.
  repeat (apply elem_of_cons in Ht as [[= -> ->]|Ht]); [..|by apply elem_of_nil in Ht];
    (split; [intros pre d post v Hlen Hpre Hd Hv|intros operands Hlen Hall]);
    cbn [Eval negb].
  - rewrite exprOr_Eval_loop by exact Hlen. by apply exprOr_loop_decides.
  - rewrite exprOr_Eval_loop by exact Hlen. by apply exprOr_loop_none.
  - rewrite exprAnd_Eval_loop by exact Hlen. by apply exprAnd_loop_decides.
  - rewrite exprAnd_Eval_loop by exact Hlen. by apply exprAnd_loop_none.
Qed.

End ShortCircuit.

(** An Or decided by its second operand, before a Let that would panic and
    a parameter that is not in the bag. *)
Lemma and_or_short_circuit_witness :
  Eval (Or (EValue (BoolValue false)) (EValue (BoolValue true))
          [Let (EValue (BoolValue true)) True_ True_; EParam (BoolParam "spy")])
    (bag ∅) = Ok (BoolValue true).
Proof.
  refine (proj1 (and_or_short_circuit (bag ∅) exprOr true "or" _)
            [EValue (BoolValue false)] (EValue (BoolValue true))
            [Let (EValue (BoolValue true)) True_ True_; EParam (BoolParam "spy")]
            (BoolValue true) _ _ _ _).
  - apply list_elem_of_here.
  - simpl. lia.
  - repeat constructor. exists (BoolValue false). repeat split.
  - reflexivity.
  - reflexivity.
Defined.

(** ** fnv and percentile *)

Section Hash.
Local Open Scope Z_scope.

Lemma lxor_uint32 a b :
  0 <= a < 2 ^ 32 -> 0 <= b < 2 ^ 32 -> 0 <= Z.lxor a b < 2 ^ 32.
Proof.
  intros Ha Hb.
  assert (H0 : 0 <= Z.lxor a b) by (apply Z.lxor_nonneg; lia).
  split; [exact H0|].
  destruct (Z.eq_dec (Z.lxor a b) 0) as [->|Hne]; [lia|].
  apply Z.log2_lt_pow2; [lia|].
  pose proof (Z.log2_lxor a b ltac:(lia) ltac:(lia)) as Hl.
  assert (Z.log2 a < 32).
  { destruct (Z.eq_dec a 0) as [->|]; [simpl; lia|]. apply Z.log2_lt_pow2; lia. }
  assert (Z.log2 b < 32).
  { destruct (Z.eq_dec b 0) as [->|]; [simpl; lia|]. apply Z.log2_lt_pow2; lia. }
  lia.
Qed.

Lemma Write_uint32 data hash :
  0 <= hash < 2 ^ 32 -> 0 <= Write hash data < 2 ^ 32.
Proof.
  revert hash; induction data as [|c data IH]; intros hash Hh; simpl; [exact Hh|].
  apply IH, lxor_uint32.
  - apply Z.mod_pos_bound. lia.
  - pose proof (nat_ascii_bounded c). lia.
Qed.

(** The hash is a uint32. *)
Lemma Sum32_uint32 data : 0 <= Sum32 data < 2 ^ 32.
Proof. apply Write_uint32. unfold offset32. lia. Qed.

(** FNV-1 test vectors. *)
Example Sum32_empty : Sum32 "" = 0x811c9dc5.
Proof. reflexivity. Qed.
Example Sum32_a : Sum32 "a" = 0x050c5d7e.
Proof. reflexivity. Qed.
Example Sum32_foobar : Sum32 "foobar" = 0x31f0b262.
Proof. reflexivity. Qed.


End Hash.


(** ** Let: the scope of the body *)

Section LetScope.

Variable params : Params.

(** The frame that [exprLet.Eval] builds: its value is the Data of the
    value operand, read under the Type of the symbol. *)
Lemma scope_frame symb val x :
  scope symb val params = Ok (newStack (Param_Name symb) x params) ->
  match x with
  | PString s => Param_Type symb = "string" /\ s = Value_Data val
  | PInt64 i => Param_Type symb = "int64" /\ ParseInt (Value_Data val) = Ok i
  | PFloat64 f => Param_Type symb = "float64" /\ ParseFloat (Value_Data val) = Ok f
  | PBool b => Param_Type symb = "bool" /\ ParseBool (Value_Data val) = Ok b
  end.
Proof.
  unfold scope, newStack, toInt64, toFloat64, toBool, Value_Eval.
  cbn [mbind outcome_bind].
  destruct (String.eqb_spec (Param_Type symb) "string") as [Hs|_].
  { intros [= <-]. auto. }
  destruct (String.eqb_spec (Param_Type symb) "int64") as [Hi|_].
  { destruct (ParseInt (Value_Data val)); simpl; intros [= <-]. auto. }
  destruct (String.eqb_spec (Param_Type symb) "float64") as [Hf|_].
  { destruct (ParseFloat (Value_Data val)); simpl; intros [= <-]. auto. }
  destruct (String.eqb_spec (Param_Type symb) "bool") as [Hb|_].
  { destruct (ParseBool (Value_Data val)); simpl; intros [= <-]. auto. }
  discriminate.
Qed.

(** Conversely, the frame is built as soon as the Data reads under the
    Type of the symbol. *)
Lemma scope_built symb val :
  (Param_Type symb = "string" ->
   scope symb val params
   = Ok (newStack (Param_Name symb) (PString (Value_Data val)) params)) /\
  (forall i, Param_Type symb = "int64" -> ParseInt (Value_Data val) = Ok i ->
   scope symb val params = Ok (newStack (Param_Name symb) (PInt64 i) params)) /\
  (forall f, Param_Type symb = "float64" -> ParseFloat (Value_Data val) = Ok f ->
   scope symb val params = Ok (newStack (Param_Name symb) (PFloat64 f) params)) /\
  (forall b, Param_Type symb = "bool" -> ParseBool (Value_Data val) = Ok b ->
   scope symb val params = Ok (newStack (Param_Name symb) (PBool b) params)).
Proof.
  unfold scope, toInt64, toFloat64, toBool, Value_Eval.
  repeat split; intros;
    match goal with H : Param_Type symb = _ |- _ => rewrite H end;
    cbn [String.eqb Ascii.eqb Bool.eqb mbind outcome_bind];
    try match goal with H : _ = Ok _ |- _ => rewrite H end; reflexivity.
Qed.

(** A lookup of the frame's name through the getter of the frame's type. *)
Lemma Param_Eval_bound symb x :
  match x with
  | PString _ => Param_Type symb = "string"
  | PInt64 _ => Param_Type symb = "int64"
  | PFloat64 _ => Param_Type symb = "float64"
  | PBool _ => Param_Type symb = "bool"
  end ->
  Param_Eval symb (stack_Params (newStack (Param_Name symb) x params))
  = Ok match x with
       | PString s => StringValue s
       | PInt64 i => Int64Value i
       | PFloat64 f => Float64Value f
       | PBool b => BoolValue b
       end.
Proof.
  destruct x; intros Ht; unfold Param_Eval, stack_Params, newStack, call;
    rewrite Ht; cbn [String.eqb Ascii.eqb Bool.eqb GetString GetInt64 GetFloat64 GetBool
                     stack_get stack_symbol stack_value];
    rewrite String.eqb_refl; reflexivity.
Qed.

(** A lookup of another name goes to the parent. *)
Lemma Param_Eval_delegates symb x q :
  Param_Name q <> Param_Name symb -> params <> None ->
  Param_Eval q (stack_Params (newStack (Param_Name symb) x params))
  = Param_Eval q params.
Proof.
  intros Hne Hnil. destruct params as [impl|]; [|congruence].
  apply String.eqb_neq in Hne.
  unfold Param_Eval, stack_Params, newStack, call.
  cbn [GetString GetInt64 GetFloat64 GetBool stack_get stack_symbol stack_parent].
  rewrite Hne. reflexivity.
Qed.

(** C5 (amended): for a Let whose operand 0 is a Param of one of the four
    types, whose value operand evaluates to a Value, and whose Data reads
    under the Type of the Param (as any string does for string, as an int64,
    a float64 or a bool for the others), so that the frame binding the name
    to that reading x is built: the body is evaluated in the scope of that
    frame over the outer Params; there a lookup of the bound name under the
    Param's type returns x as a Value, whatever the outer Params hold for
    the name; a lookup of any other name is the lookup in the outer Params;
    and the outer bag is as before, so if it did not hold the name, a
    reference to the name outside the Let yields ParamNotFound. *)
Theorem Let_scoping kind symb value body rest val x :
  Eval value params = Ok val ->
  scope symb val params = Ok (newStack (Param_Name symb) x params) ->
  Eval (EOp exprLet kind (EParam symb :: value :: body :: rest)) params
  = Eval body (stack_Params (newStack (Param_Name symb) x params)) /\
  match x with
  | PString s => s = Value_Data val
  | PInt64 i => ParseInt (Value_Data val) = Ok i
  | PFloat64 f => ParseFloat (Value_Data val) = Ok f
  | PBool b => ParseBool (Value_Data val) = Ok b
  end /\
  Param_Eval symb (stack_Params (newStack (Param_Name symb) x params))
  = Ok match x with
       | PString s => StringValue s
       | PInt64 i => Int64Value i
       | PFloat64 f => Float64Value f
       | PBool b => BoolValue b
       end /\
  (forall q, Param_Name q <> Param_Name symb -> params <> None ->
     Param_Eval q (stack_Params (newStack (Param_Name symb) x params))
     = Param_Eval q params) /\
  (forall m, params = bag m -> m !! Param_Name symb = None ->
     Eval (EParam symb) params = Err ErrParamNotFound).
Proof.
  intros Hval Hscope. pose proof (scope_frame _ _ _ Hscope) as Hx.
  split; [|split; [|split; [|split]]].
  - cbn [Eval exprLet_Eval]. rewrite Hval. cbn [mbind outcome_bind].
    rewrite Hscope. reflexivity.
  - destruct x; tauto.
  - apply Param_Eval_bound. destruct x; tauto.
  - intros q. apply Param_Eval_delegates.
  - intros m -> Hm. cbn [Eval]. unfold Param_Eval, bag, call.
    cbn [GetString GetInt64 GetFloat64 GetBool]. unfold bag_get. rewrite Hm.
    destruct x; destruct Hx as [-> _]; reflexivity.
Qed.

End LetScope.

(** Scenario 6 of the spec: let x be the int64 3 in eq(x, 3), over a bag
    that does not hold x. *)
Lemma Let_scoping_witness :
  Eval (EValue (Int64Value 3)) (bag ∅) = Ok (Int64Value 3) /\
  scope (Int64Param "x") (Int64Value 3) (bag ∅)
  = Ok (newStack "x" (PInt64 3) (bag ∅)) /\
  Eval (Let (EParam (Int64Param "x")) (EValue (Int64Value 3))
          (Eq (EParam (Int64Param "x")) (EValue (Int64Value 3)) [])) (bag ∅)
  = Ok (BoolValue true) /\
  Eval (EParam (Int64Param "x")) (bag ∅) = Err ErrParamNotFound.
Proof.
  split; [reflexivity|]. split; [reflexivity|].
  pose proof (Let_scoping (bag ∅) "let" (Int64Param "x") (EValue (Int64Value 3))
                (Eq (EParam (Int64Param "x")) (EValue (Int64Value 3)) []) []
                (Int64Value 3) (PInt64 3) eq_refl eq_refl) as (H1 & _ & _ & _ & H5).
  split.
  - unfold Let. rewrite H1. reflexivity.
  - apply (H5 ∅); reflexivity.
Defined.

(** C5, as stated, fails: the value operand evaluates (to the string abc),
    the Param is an int64 one, and the Let returns the error of reading abc
    as an int64; its body, which evaluates to true in every scope, is not
    evaluated. *)
Lemma Let_value_must_read_as_the_type :
  Eval (EValue (StringValue "abc")) (bag ∅) = Ok (StringValue "abc") /\
  Eval (Let (EParam (Int64Param "x")) (EValue (StringValue "abc")) True_) (bag ∅)
  = Err (NumError "ParseInt" "abc" ErrSyntax).
Proof. split; reflexivity. Qed.

(** ** Let: operand 0 and the unset scope *)

Lemma Param_Eval_unset_scope q :
  Param_Eval q (stack_Params None) = Panic nil_pointer_dereference \/
  Param_Eval q (stack_Params None) = Err (errors_New "unsupported param type").
Proof.
  unfold Param_Eval, stack_Params, call.
  repeat match goal with
         | |- context [String.eqb ?a ?b] => destruct (String.eqb a b); [left; reflexivity|]
         end.
  right; reflexivity.
Qed.

(** C10 (amended): [exprLet.Eval] asserts that operand 0 is a [*Param] and
    panics when it is any other expression. When the Param's Type is none
    of string, int64, float64 and bool, no frame is built: the body is
    evaluated against the unset [*stack], which as a [Params] is not the nil
    interface, so the guard of [Param.Eval] that answers params is nil does
    not apply to a lookup in the body. *)
Theorem Let_operand0_and_unset_scope kind params :
  (forall op0 rest,
     (forall p, op0 <> EParam p) ->
     Eval (EOp exprLet kind (op0 :: rest)) params = Panic interface_conversion) /\
  (forall symb value body rest val,
     Param_Type symb ∉ ["string"; "int64"; "float64"; "bool"] ->
     Eval value params = Ok val ->
     Eval (EOp exprLet kind (EParam symb :: value :: body :: rest)) params
     = Eval body (stack_Params None) /\
     stack_Params None <> None /\
     forall q, Param_Eval q (stack_Params None) <> Err (errors_New "params is nil")).
Proof.
  split.
  - intros op0 rest Hop0. cbn [Eval exprLet_Eval].
    destruct op0 as [v|p|t k ops]; [reflexivity| |reflexivity].
    exfalso. exact (Hop0 p eq_refl).
  - intros symb value body rest val Hty Hval.
    split; [|split].
    + cbn [Eval exprLet_Eval]. rewrite Hval. cbn [mbind outcome_bind].
      unfold scope.
      repeat match goal with
             | |- context [String.eqb ?a ?b] =>
                 destruct (String.eqb_spec a b) as [Heq|_];
                 [exfalso; apply Hty; rewrite Heq; apply list_elem_of_In; simpl; tauto|]
             end.
      reflexivity.
    + discriminate.
    + intros q. destruct (Param_Eval_unset_scope q) as [-> | ->]; discriminate.
Qed.

Lemma Let_operand0_and_unset_scope_witness :
  Eval (Let (EValue (StringValue "x")) (EValue (Int64Value 3)) True_) (bag ∅)
  = Panic interface_conversion /\
  Eval (Let (EParam {| Param_Kind := "param"; Param_Type := "int"; Param_Name := "x" |})
          (EValue (Int64Value 3)) True_) (bag ∅)
  = Ok (BoolValue true).
Proof.
  pose proof (Let_operand0_and_unset_scope "let" (bag ∅)) as [H1 H2].
  split.
  - apply H1. discriminate.
  - refine (eq_trans (proj1 (H2
        {| Param_Kind := "param"; Param_Type := "int"; Param_Name := "x" |}
        (EValue (Int64Value 3)) True_ [] (Int64Value 3) _ eq_refl)) eq_refl).
    intros H%list_elem_of_In. simpl in H.
    destruct H as [H|[H|[H|[H|[]]]]]; discriminate H.
Defined.

(** C10, as stated, fails: with a Param of the type int (none of the four)
    the body's lookup of y does not return the error params is nil. The
    scope is a nil [*stack] held in a [Params], which is not the nil
    interface: the getter is called on the nil pointer. *)
Lemma Let_unset_scope_is_no_nil_Params :
  Eval (Let (EParam {| Param_Kind := "param"; Param_Type := "int"; Param_Name := "x" |})
          (EValue (StringValue "a")) (EParam (StringParam "y"))) (bag ∅)
  = Panic nil_pointer_dereference /\
  Eval (Let (EParam {| Param_Kind := "param"; Param_Type := "int"; Param_Name := "x" |})
          (EValue (StringValue "a")) (EParam (StringParam "y"))) (bag ∅)
  <> Err (errors_New "params is nil").
Proof. split; [reflexivity|discriminate]. Qed.

(** ** JSON: marshalling and unmarshalling *)

Section JSON.
Import json.

(** Induction over expressions, with the operands of an operator. *)
Lemma Expr_ind (P : Expr -> Prop) :
  (forall v, P (EValue v)) ->
  (forall p, P (EParam p)) ->
  (forall t kind operands, Forall P operands -> P (EOp t kind operands)) ->
  forall e, P e.
Proof.
  intros HV HP HO. fix go 1.
  intros [v|p|t kind operands]; [apply HV|apply HP|].
  apply HO. induction operands as [|x r IHr]; constructor; [apply go|exact IHr].
Qed.

Lemma unmarshalExpr_unfold kind data :
  unmarshalExpr kind data =
  if String.eqb kind "value" then v ← Unmarshal_Value data; Ok (EValue v)
  else if String.eqb kind "param" then p ← Unmarshal_Param data; Ok (EParam p)
  else
    match operator_of_kind kind with
    | Some t =>
        r ← operator_UnmarshalJSON unmarshalExpr data;
        Ok (EOp t r.1 r.2)
    | None => Err (errors_New (String.append "unknown expression kind " kind))
    end.
Proof. destruct data; reflexivity. Qed.

(** C2, at the input where it fails: a Let built by the builder API
    marshals to a node of kind let, and [unmarshalExpr] has no case for that
    kind (every other operator has one): the JSON of any Let decodes to an
    error, not to the Let. *)
Theorem Let_does_not_unmarshal parameter value body :
  Unmarshal (MarshalJSON (Let parameter value body))
  = Err (errors_New "unknown expression kind let").
Proof. reflexivity. Qed.

(** It fails below another operator as well. *)
Lemma Let_operand_does_not_unmarshal parameter value body :
  Unmarshal (MarshalJSON (Not (Let parameter value body)))
  = Err (errors_New "unknown expression kind let").
Proof. reflexivity. Qed.

Lemma operator_of_kind_not_leaf kind t :
  operator_of_kind kind = Some t ->
  String.eqb kind "value" = false /\ String.eqb kind "param" = false.
Proof.
  intros H. split.
  - destruct (String.eqb_spec kind "value") as [->|]; [discriminate H|reflexivity].
  - destruct (String.eqb_spec kind "param") as [->|]; [discriminate H|reflexivity].
Qed.

(** Apart from Let, what the builder API builds decodes from its JSON to an
    equal expression. *)
Lemma Unmarshal_MarshalJSON e : decodable e -> Unmarshal (MarshalJSON e) = Ok e.
Proof.
  induction e as [v|p|t kind operands IH] using Expr_ind.
  - destruct v as [k ty d]. simpl. intros ->. reflexivity.
  - destruct p as [k ty n]. simpl. intros ->. reflexivity.
  - intros (Hk & Hne & Hall).
    assert (Hloop : operands_loop unmarshalExpr (map MarshalJSON operands) = Ok operands).
    { clear Hne. induction IH as [|x r Hx _ IHr]; [reflexivity|].
      destruct Hall as [Hdx Hdr]. cbn [map operands_loop].
      change (unmarshalExpr (gjson_kind (MarshalJSON x)) (MarshalJSON x))
        with (Unmarshal (MarshalJSON x)).
      rewrite (Hx Hdx), (IHr Hdr). reflexivity. }
    destruct (operator_of_kind_not_leaf _ _ Hk) as [Hv Hp].
    unfold Unmarshal. cbn [MarshalJSON gjson_kind gjson_kind_members].
    rewrite String.eqb_refl, unmarshalExpr_unfold, Hv, Hp, Hk.
    destruct operands as [|x r]; [congruence|].
    cbn [operator_UnmarshalJSON operator_members names to_lower lower].
    vm_compute (String.eqb _ "kind"). cbv iota.
    cbn [store_string].
    vm_compute (String.eqb _ "kind"). cbv iota.
    vm_compute (String.eqb _ "operands"). cbv iota.
    cbn [operands_UnmarshalJSON]. rewrite Hloop. reflexivity.
Qed.

Example Unmarshal_MarshalJSON_And :
  Unmarshal (MarshalJSON
    (And (Not (EValue (BoolValue false))) (EParam (BoolParam "p"))
       [Percentile (EValue (StringValue "a")) (EValue (Int64Value 5))]))
  = Ok (And (Not (EValue (BoolValue false))) (EParam (BoolParam "p"))
          [Percentile (EValue (StringValue "a")) (EValue (Int64Value 5))]).
Proof. apply Unmarshal_MarshalJSON. simpl. repeat split; discriminate. Qed.

End JSON.

(** ** The HTTP API: put without a change, watch until cancelled *)

Section API.
Import server.

(** [rulesetAPI.put] when the service reports NotModified: the ruleset is
    read back and sent as for a put that wrote a version. *)
Lemma put_handler_not_modified {S} (svc : RulesetService S) st path rules version st' rs :
  Put svc st path rules = (version, Some ErrRulesetNotModified, st') ->
  Get svc st' path version = (rs, None) ->
  put svc st path (rules, None) = (EncodeJSON (RulesetBody rs) StatusOK, st').
Proof. intros HP HG. unfold put. rewrite HP, HG. reflexivity. Qed.

(** C7 (amended): a put whose rule list is structurally equal to the rules
    of the latest version of the ruleset is reported by the service as
    NotModified, and the store is unchanged (no version is written); the
    put handler of the HTTP API answers it as it answers a put that wrote a
    version, by reading the ruleset back and sending it with status 200, not
    by an error. *)
Theorem put_not_modified validate watch_ st path rules rs ver :
  rulesets_ st !! path = Some rs ->
  validate (Signature_ rs) rules = None ->
  latest rs = Some ver -> Rules ver = rules ->
  store_Put validate st path rules = ("", Some ErrRulesetNotModified, st) /\
  put (store_service validate watch_) st path (rules, None)
  = (EncodeJSON (RulesetBody (Some rs)) StatusOK, st).
Proof.
  intros Hrs Hval Hlatest Hrules.
  assert (HP : store_Put validate st path rules = ("", Some ErrRulesetNotModified, st)).
  { unfold store_Put. rewrite Hrs, Hval, Hlatest. simpl. rewrite Hrules.
    rewrite bool_decide_eq_true_2 by reflexivity. reflexivity. }
  split; [exact HP|].
  apply put_handler_not_modified with (version := ""); [exact HP|].
  cbn [Get store_service]. unfold store_Get. rewrite Hrs. reflexivity.
Qed.

(** Scenario S3 of the spec: the ruleset a/nice/ruleset with the one rule
    (or true false) returning Easy tiger, as version 1. *)
Local Abbreviation S3_rules :=
  [{| Rule_Expr := Or (EValue (BoolValue true)) (EValue (BoolValue false)) [];
      Rule_Result := StringValue "Easy tiger" |}].
Local Abbreviation S3_version := {| Version := "1"; Rules := S3_rules |}.
Local Abbreviation S3_ruleset :=
  {| Path := "a/nice/ruleset"; Signature_ := None; Versions := [S3_version] |}.
Local Abbreviation S3_store :=
  {| rulesets_ := {[ "a/nice/ruleset" := S3_ruleset ]}; revision := 1 |}.
Local Abbreviation S3_service :=
  (store_service (fun _ _ => None) (fun _ _ _ => (None, None))).

Lemma put_not_modified_witness :
  rulesets_ S3_store !! "a/nice/ruleset" = Some S3_ruleset /\
  latest S3_ruleset = Some S3_version /\
  store_Put (fun _ _ => None) S3_store "a/nice/ruleset" S3_rules
  = ("", Some ErrRulesetNotModified, S3_store) /\
  put S3_service S3_store "a/nice/ruleset" (S3_rules, None)
  = (EncodeJSON (RulesetBody (Some S3_ruleset)) StatusOK, S3_store).
Proof.
  split; [vm_compute; reflexivity|]. split; [reflexivity|].
  apply (put_not_modified (fun _ _ => None) (fun _ _ _ => (None, None))
           S3_store "a/nice/ruleset" S3_rules S3_ruleset S3_version).
  - vm_compute; reflexivity.
  - reflexivity.
  - reflexivity.
  - reflexivity.
Defined.

(** C7, as stated, fails on the status: for the put of scenario S3 the
    service reports NotModified and the store is unchanged, and the put
    handler answers 200, not 204. *)
Lemma put_not_modified_answers_200 :
  store_Put (fun _ _ => None) S3_store "a/nice/ruleset" S3_rules
  = ("", Some ErrRulesetNotModified, S3_store) /\
  StatusCode (put S3_service S3_store "a/nice/ruleset" (S3_rules, None)).1 = 200%Z /\
  StatusCode (put S3_service S3_store "a/nice/ruleset" (S3_rules, None)).1
  <> StatusNoContent.
Proof. split; [|split]; [vm_compute; reflexivity..|vm_compute; discriminate]. Qed.

(** C8: a watch request that reaches the service and whose watch ends with
    the error of a cancelled context or of an expired deadline is answered
    with status 200 and the events the service returned, not with an
    error. *)
Theorem watch_cancelled_answers_200 {S} (svc : RulesetService S) st r paths rev events err :
  (if (0 <? ContentLength r)%Z then Decode_paths r else ([], None)) = (paths, None) ->
  (if String.eqb (Query_revision r) "" then Ok (-1)%Z
   else ParseInt (Query_revision r)) = Ok rev ->
  Watch svc st paths rev = (events, Some err) ->
  err = context_Canceled \/ err = context_DeadlineExceeded ->
  watch svc st r = EncodeJSON (EventsBody events) StatusOK /\
  StatusCode (watch svc st r) = 200%Z.
Proof.
  intros Hp Hr Hw Herr. unfold watch. rewrite Hp, Hr, Hw.
  destruct Herr as [-> | ->]; split; reflexivity.
Qed.

Local Abbreviation timed_out_service :=
  {| Put := fun (st : unit) _ _ => ("", None, st);
     Get := fun _ _ _ => (None, Some ErrRulesetNotFound);
     Watch := fun _ _ _ =>
       (Some {| Events := []; Revision := "7"; Timeout := false |},
        Some context_DeadlineExceeded) |}.

Lemma watch_cancelled_answers_200_witness :
  watch timed_out_service tt
    {| ContentLength := 0; Decode_paths := ([], None); Query_revision := "7" |}
  = EncodeJSON
      (EventsBody (Some {| Events := []; Revision := "7"; Timeout := false |}))
      StatusOK.
Proof.
  apply (watch_cancelled_answers_200 timed_out_service tt
    {| ContentLength := 0; Decode_paths := ([], None); Query_revision := "7" |}
    [] 7%Z (Some {| Events := []; Revision := "7"; Timeout := false |})
    context_DeadlineExceeded).
  - reflexivity.
  - reflexivity.
  - reflexivity.
  - right. reflexivity.
Defined.

End API.

(** * Further properties of the expression kernel *)

(** ** Not, And, Or on the bool Values of the constructors *)

Section Connectives.

Variable params : Params.

Lemma exprOr_loop_existsb ops bs :
  Forall2 (fun e b => Eval e params = Ok (BoolValue b)) ops bs ->
  exprOr_loop Eval ops params = Ok (BoolValue (existsb id bs)).
Proof.
  induction 1 as [|e b ops bs He _ IH]; [reflexivity|].
  cbn [exprOr_loop existsb]. rewrite He. destruct b; [reflexivity|]. exact IH.
Qed.

Lemma exprAnd_loop_forallb ops bs :
  Forall2 (fun e b => Eval e params = Ok (BoolValue b)) ops bs ->
  exprAnd_loop Eval ops params = Ok (BoolValue (forallb id bs)).
Proof.
  induction 1 as [|e b ops bs He _ IH]; [reflexivity|].
  cbn [exprAnd_loop forallb]. rewrite He. destruct b; [|reflexivity]. exact IH.
Qed.

(** X1: over operands that evaluate to [BoolValue]s, Not returns the
    negation of operand 0 (operands after it are not read), Or of at least
    two operands the disjunction of all of them, and And the conjunction. *)
Theorem connectives_are_classical kind :
  (forall op rest b,
     Eval op params = Ok (BoolValue b) ->
     Eval (EOp exprNot kind (op :: rest)) params = Ok (BoolValue (negb b))) /\
  (forall ops bs,
     2 <= length ops ->
     Forall2 (fun e b => Eval e params = Ok (BoolValue b)) ops bs ->
     Eval (EOp exprOr kind ops) params = Ok (BoolValue (existsb id bs)) /\
     Eval (EOp exprAnd kind ops) params = Ok (BoolValue (forallb id bs))).
Proof.
  split.
  - intros op rest b Hop. cbn [Eval exprNot_Eval]. rewrite Hop.
    destruct b; reflexivity.
  - intros ops bs Hlen Hall. cbn [Eval].
    rewrite exprOr_Eval_loop, exprAnd_Eval_loop by exact Hlen.
    split; [by apply exprOr_loop_existsb|by apply exprAnd_loop_forallb].
Qed.

End Connectives.

Lemma connectives_are_classical_witness :
  Eval (Or (EValue (BoolValue false)) (EParam (BoolParam "vip")) [])
    (bag {["vip" := PBool true]}) = Ok (BoolValue true) /\
  Eval (And (EValue (BoolValue true)) (EParam (BoolParam "vip")) [EValue (BoolValue false)])
    (bag {["vip" := PBool true]}) = Ok (BoolValue false).
Proof.
  pose proof (connectives_are_classical (bag {["vip" := PBool true]}) "or") as [_ H].
  split.
  - apply (H [EValue (BoolValue false); EParam (BoolParam "vip")] [false; true]).
    + simpl; lia.
    + repeat constructor.
  - pose proof (connectives_are_classical (bag {["vip" := PBool true]}) "and") as [_ H'].
    apply (H' [EValue (BoolValue true); EParam (BoolParam "vip"); EValue (BoolValue false)]
              [true; true; false]).
    + simpl; lia.
    + repeat constructor.
Defined.

(** ** Eq and In *)

Section EqIn.

Variable params : Params.

Lemma exprEq_loop_forallb v0 ops vs :
  Forall2 (fun e v => Eval e params = Ok v) ops vs ->
  exprEq_loop Eval v0 ops params = Ok (BoolValue (forallb (Value_Equal v0) vs)).
Proof.
  induction 1 as [|e v ops vs He _ IH]; [reflexivity|].
  cbn [exprEq_loop forallb]. rewrite He. cbn [mbind outcome_bind].
  destruct (Value_Equal v0 v); [exact IH|reflexivity].
Qed.

Lemma exprIn_loop_existsb v0 ops vs :
  Forall2 (fun e v => Eval e params = Ok v) ops vs ->
  exprIn_loop Eval v0 ops params = Ok (BoolValue (existsb (Value_Equal v0) vs)).
Proof.
  induction 1 as [|e v ops vs He _ IH]; [reflexivity|].
  cbn [exprIn_loop existsb]. rewrite He. cbn [mbind outcome_bind].
  destruct (Value_Equal v0 v); [reflexivity|exact IH].
Qed.

(** X2: when operand 0 evaluates to v0 and the later operands (at least
    one) to the Values vs, Eq returns whether every one of vs is Equal to
    v0, and In whether some one of vs is. *)
Theorem eq_in_by_Value_Equal kind op0 ops v0 vs :
  ops <> [] ->
  Eval op0 params = Ok v0 ->
  Forall2 (fun e v => Eval e params = Ok v) ops vs ->
  Eval (EOp exprEq kind (op0 :: ops)) params
  = Ok (BoolValue (forallb (Value_Equal v0) vs)) /\
  Eval (EOp exprIn kind (op0 :: ops)) params
  = Ok (BoolValue (existsb (Value_Equal v0) vs)).
Proof.
  intros Hne H0 Hall. destruct ops as [|op1 ops]; [congruence|].
  cbn [Eval exprEq_Eval exprIn_Eval]. rewrite H0. cbn [mbind outcome_bind].
  split; [by apply exprEq_loop_forallb|by apply exprIn_loop_existsb].
Qed.

(** X3: Eq stops at the first operand whose Value is not Equal to that of
    operand 0 and returns false, and In stops at the first operand whose
    Value is Equal to it and returns true; the operands after that one are
    not evaluated, whatever they are. *)
Theorem eq_in_stop_early kind op0 v0 pre d post w :
  Eval op0 params = Ok v0 ->
  Eval d params = Ok w ->
  (Forall (fun e => exists u, Eval e params = Ok u /\ Value_Equal v0 u = true) pre ->
   Value_Equal v0 w = false ->
   Eval (EOp exprEq kind (op0 :: pre ++ d :: post)) params = Ok (BoolValue false)) /\
  (Forall (fun e => exists u, Eval e params = Ok u /\ Value_Equal v0 u = false) pre ->
   Value_Equal v0 w = true ->
   Eval (EOp exprIn kind (op0 :: pre ++ d :: post)) params = Ok (BoolValue true)).
Proof.
  intros H0 Hd.
  assert (HEq : forall l, Eval (EOp exprEq kind (op0 :: l ++ d :: post)%list) params
                          = exprEq_loop Eval v0 (l ++ d :: post)%list params).
  { intros l. cbn [Eval]. destruct l; simpl; rewrite H0; reflexivity. }
  assert (HIn : forall l, Eval (EOp exprIn kind (op0 :: l ++ d :: post)%list) params
                          = exprIn_loop Eval v0 (l ++ d :: post)%list params).
  { intros l. cbn [Eval]. destruct l; simpl; rewrite H0; reflexivity. }
  split; intros Hpre Hw; [rewrite HEq|rewrite HIn]; clear HEq HIn;
    (induction Hpre as [|e pre (u & He & Hu) _ IH]; simpl;
     [rewrite Hd; simpl; rewrite Hw; reflexivity
     |rewrite He; simpl; rewrite Hu; exact IH]).
Qed.

End EqIn.

Lemma eq_in_by_Value_Equal_witness :
  Eval (Eq (EParam (StringParam "country")) (EValue (StringValue "FR")) [])
    (bag {["country" := PString "FR"]}) = Ok (BoolValue true) /\
  Eval (In (EParam (StringParam "country")) (EValue (StringValue "DE"))
          [EValue (StringValue "FR")])
    (bag {["country" := PString "FR"]}) = Ok (BoolValue true).
Proof.
  split.
  - apply (eq_in_by_Value_Equal (bag {["country" := PString "FR"]}) "eq"
             (EParam (StringParam "country")) [EValue (StringValue "FR")]
             (StringValue "FR") [StringValue "FR"]).
    + discriminate.
    + reflexivity.
    + repeat constructor.
  - apply (eq_in_by_Value_Equal (bag {["country" := PString "FR"]}) "in"
             (EParam (StringParam "country"))
             [EValue (StringValue "DE"); EValue (StringValue "FR")]
             (StringValue "FR") [StringValue "DE"; StringValue "FR"]).
    + discriminate.
    + reflexivity.
    + repeat constructor.
Defined.

Lemma eq_in_stop_early_witness :
  Eval (Eq (EValue (Int64Value 1)) (EValue (Int64Value 2))
          [EParam (Int64Param "absent")]) (bag ∅) = Ok (BoolValue false) /\
  Eval (In (EValue (Int64Value 1)) (EValue (Int64Value 1))
          [EParam (Int64Param "absent")]) (bag ∅) = Ok (BoolValue true).
Proof.
  pose proof (eq_in_stop_early (bag ∅) "eq" (EValue (Int64Value 1)) (Int64Value 1) []
                (EValue (Int64Value 2)) [EParam (Int64Param "absent")] (Int64Value 2)
                eq_refl eq_refl) as [H _].
  pose proof (eq_in_stop_early (bag ∅) "in" (EValue (Int64Value 1)) (Int64Value 1) []
                (EValue (Int64Value 1)) [EParam (Int64Param "absent")] (Int64Value 1)
                eq_refl eq_refl) as [_ H'].
  split; [apply H|apply H']; (constructor || reflexivity).
Defined.

(** ** The order of Values, type by type *)

Lemma string_leb_ltb a b : negb (String.leb a b) = String.ltb b a.
Proof.
  unfold String.leb, String.ltb. rewrite (String.compare_antisym b a).
  destruct (String.compare a b); reflexivity.
Qed.

Lemma string_leb_both a b :
  String.leb a b = true /\ String.leb b a = true <-> a = b.
Proof.
  split.
  - intros [H1 H2]. by apply String.leb_antisym.
  - intros ->. destruct (String.leb_total b b); auto.
Qed.

(** X4: on string Values the four methods are the bytewise lexicographic
    order of the Data: greater is less with the sides exchanged, less or
    equal is the negation of greater, and two Values are each less or equal
    than the other exactly when their Data are equal. *)
Theorem string_Values_are_totally_ordered v w :
  Value_Type v = "string" -> Value_Type w = "string" ->
  Value_GT v w = Value_LT w v /\
  Value_GTE v w = Value_LTE w v /\
  Value_LT v w = Ok (String.ltb (Value_Data v) (Value_Data w)) /\
  Value_LTE v w = Ok (String.leb (Value_Data v) (Value_Data w)) /\
  (Value_LTE v w = Ok true <-> Value_GT v w = Ok false) /\
  (Value_LTE v w = Ok true /\ Value_GTE v w = Ok true <-> Value_Data v = Value_Data w).
Proof.
  intros Hv Hw. unfold Value_GT, Value_GTE, Value_LT, Value_LTE.
  rewrite Hv, Hw. cbn [String.eqb Ascii.eqb Bool.eqb].
  rewrite <- !string_leb_ltb.
  pose proof (string_leb_both (Value_Data v) (Value_Data w)) as Hboth.
  pose proof (String.leb_total (Value_Data v) (Value_Data w)) as Htot.
  destruct (String.leb (Value_Data v) (Value_Data w)),
           (String.leb (Value_Data w) (Value_Data v)); cbn [negb];
    (split; [reflexivity|]); (split; [reflexivity|]);
    (split; [reflexivity|]); (split; [reflexivity|]); split; split;
    try reflexivity; try discriminate; try tauto;
    try (intros [? ?]; discriminate);
    try (intros Heq; apply Hboth in Heq; destruct Heq; discriminate);
    try (destruct Htot; discriminate).
Qed.

Lemma string_Values_are_totally_ordered_witness :
  Value_GT (StringValue "10") (StringValue "9") = Ok false /\
  Value_LT (StringValue "10") (StringValue "9") = Ok true.
Proof.
  pose proof (string_Values_are_totally_ordered (StringValue "10") (StringValue "9")
                eq_refl eq_refl) as (_ & _ & H3 & _ & H5 & _).
  split; [apply H5; reflexivity|exact H3].
Defined.

Section Numbers.
Local Open Scope Z_scope.

Lemma Int64Value_compare a b :
  - 2 ^ 63 <= a < 2 ^ 63 -> - 2 ^ 63 <= b < 2 ^ 63 ->
  Value_GT (Int64Value a) (Int64Value b) = Ok (b <? a) /\
  Value_GTE (Int64Value a) (Int64Value b) = Ok (b <=? a) /\
  Value_LT (Int64Value a) (Int64Value b) = Ok (a <? b) /\
  Value_LTE (Int64Value a) (Int64Value b) = Ok (a <=? b).
Proof.
  intros Ha Hb. unfold Value_GT, Value_GTE, Value_LT, Value_LTE, parseInt64Values.
  cbn [Int64Value newValue Value_Type Value_Data String.eqb Ascii.eqb Bool.eqb].
  rewrite !ParseInt_FormatInt by assumption. cbn [mbind outcome_bind].
  rewrite (Z.ltb_antisym a b), (Z.ltb_antisym b a), (Z.leb_antisym a b), (Z.leb_antisym b a).
  destruct (a <=? b), (b <=? a), (a <? b), (b <? a); repeat split; reflexivity.
Qed.

(** X5: on the int64 Values that [Int64Value] builds the four methods are
    the order of the integers (and not of their decimal writing). *)
Theorem Int64Values_are_ordered_as_integers a b :
  - 2 ^ 63 <= a < 2 ^ 63 -> - 2 ^ 63 <= b < 2 ^ 63 ->
  Value_GT (Int64Value a) (Int64Value b) = Ok (b <? a) /\
  Value_GTE (Int64Value a) (Int64Value b) = Ok (b <=? a) /\
  Value_LT (Int64Value a) (Int64Value b) = Ok (a <? b) /\
  Value_LTE (Int64Value a) (Int64Value b) = Ok (a <=? b).
Proof. exact (Int64Value_compare a b). Qed.

Lemma Int64Values_are_ordered_as_integers_witness :
  Value_GT (Int64Value 10) (Int64Value 9) = Ok true /\
  Value_LTE (Int64Value (-9223372036854775808)) (Int64Value 9223372036854775807) = Ok true.
Proof.
  split.
  - apply (Int64Values_are_ordered_as_integers 10 9); lia.
  - apply (Int64Values_are_ordered_as_integers (-9223372036854775808)
             9223372036854775807); lia.
Defined.

(** X6: two int64 Values whose Data read as the same integer but are
    written differently are not Equal, although each is both greater or
    equal and less or equal than the other. *)
Theorem equal_integers_need_not_be_Equal v w i :
  Value_Type v = "int64" ->
  ParseInt (Value_Data v) = Ok i -> ParseInt (Value_Data w) = Ok i ->
  Value_Data v <> Value_Data w ->
  Value_Equal v w = false /\
  Value_GTE v w = Ok true /\ Value_LTE v w = Ok true /\
  Value_GT v w = Ok false /\ Value_LT v w = Ok false.
Proof.
  intros Hv Hi Hj Hne. split.
  - apply Value_Equal_neq. intros ->. congruence.
  - unfold Value_GT, Value_GTE, Value_LT, Value_LTE, parseInt64Values.
    rewrite Hv, Hi, Hj. cbn [String.eqb Ascii.eqb Bool.eqb mbind outcome_bind].
    rewrite Z.ltb_irrefl, Z.leb_refl. repeat split.
Qed.

Lemma equal_integers_need_not_be_Equal_witness :
  Value_Equal (newValue "int64" "+1") (Int64Value 1) = false /\
  Value_GTE (newValue "int64" "+1") (Int64Value 1) = Ok true /\
  Value_LTE (newValue "int64" "+1") (Int64Value 1) = Ok true /\
  Value_GT (newValue "int64" "+1") (Int64Value 1) = Ok false /\
  Value_LT (newValue "int64" "+1") (Int64Value 1) = Ok false.
Proof.
  apply (equal_integers_need_not_be_Equal (newValue "int64" "+1") (Int64Value 1) 1);
    [reflexivity..|discriminate].
Defined.

End Numbers.

(** X7: on bool Values the four methods read the Data with [ParseBool]
    (so 1, t and TRUE count as true) and order false before true. *)
Theorem bool_Values_order_false_before_true v w a b :
  Value_Type v = "bool" ->
  ParseBool (Value_Data v) = Ok a -> ParseBool (Value_Data w) = Ok b ->
  Value_GT v w = Ok (a && negb b) /\ Value_GTE v w = Ok (a || negb b) /\
  Value_LT v w = Ok (negb a && b) /\ Value_LTE v w = Ok (negb a || b).
Proof.
  intros Hv Ha Hb. unfold Value_GT, Value_GTE, Value_LT, Value_LTE, parseBoolValues.
  rewrite Hv, Ha, Hb. cbn [String.eqb Ascii.eqb Bool.eqb mbind outcome_bind].
  destruct a, b; repeat split.
Qed.

Lemma bool_Values_order_false_before_true_witness :
  Value_LT (BoolValue false) (newValue "bool" "TRUE") = Ok true /\
  Value_GT (BoolValue false) (newValue "bool" "TRUE") = Ok false.
Proof.
  pose proof (bool_Values_order_false_before_true (BoolValue false)
                (newValue "bool" "TRUE") false true eq_refl eq_refl eq_refl)
    as (H1 & _ & H3 & _).
  split; [exact H3|exact H1].
Defined.



(** ** Comparison nodes over several operands *)

Section Chains.

Variable params : Params.

Lemma compare_loop_forallb cmp v0 ops vs rs :
  Forall2 (fun e v => Eval e params = Ok v) ops vs ->
  Forall2 (fun v r => cmp v0 v = Ok r) vs rs ->
  compare_loop Eval cmp v0 ops params = Ok (BoolValue (forallb id rs)).
Proof.
  intros Hops. revert rs.
  induction Hops as [|e v ops vs He _ IH]; intros rs Hrs; inversion Hrs; subst.
  - reflexivity.
  - cbn [compare_loop forallb]. rewrite He. cbn [mbind outcome_bind].
    match goal with H : cmp v0 v = Ok _ |- _ => rewrite H end.
    cbn [mbind outcome_bind id].
    match goal with |- context [negb ?r] => destruct r end; cbn [negb andb];
      [by apply IH|reflexivity].
Qed.

(** X9: a gt, gte, lt or lte node compares operand 0 with each later
    operand, and not each operand with the next one: over the int64 Values
    of the integers a, b1, ..., bn (n at least 1) it returns whether a is
    related to every bi. *)
Theorem comparison_is_against_operand0 kind a bs :
  bs <> [] ->
  Forall (fun z => - 2 ^ 63 <= z < 2 ^ 63)%Z (a :: bs) ->
  let node t := EOp t kind (map (fun z => EValue (Int64Value z)) (a :: bs)) in
  Eval (node exprGT) params = Ok (BoolValue (forallb (fun b => b <? a)%Z bs)) /\
  Eval (node exprGTE) params = Ok (BoolValue (forallb (fun b => b <=? a)%Z bs)) /\
  Eval (node exprLT) params = Ok (BoolValue (forallb (fun b => a <? b)%Z bs)) /\
  Eval (node exprLTE) params = Ok (BoolValue (forallb (fun b => a <=? b)%Z bs)).
Proof.
  intros Hne Hrange node. subst node. inversion Hrange as [|? ? Ha Hbs]; subst.
  assert (Hops : Forall2 (fun e v => Eval e params = Ok v)
                   (map (fun z => EValue (Int64Value z)) bs) (map Int64Value bs)).
  { clear. induction bs; constructor; auto. }
  assert (Hloop : forall cmp r,
            (forall b, (- 2 ^ 63 <= b < 2 ^ 63)%Z -> cmp (Int64Value a) (Int64Value b) = Ok (r b)) ->
            forall t, compare_Eval Eval t cmp
                        (map (fun z => EValue (Int64Value z)) (a :: bs)) params
                      = Ok (BoolValue (forallb r bs))).
  { intros cmp r Hcmp t. destruct bs as [|b bs']; [congruence|].
    cbn [map compare_Eval Eval Value_Eval mbind outcome_bind].
    change (EValue (Int64Value b) :: map (fun z => EValue (Int64Value z)) bs')
      with (map (fun z => EValue (Int64Value z)) (b :: bs')).
    rewrite (compare_loop_forallb cmp (Int64Value a) _ _ (map r (b :: bs')) Hops).
    - f_equal. f_equal. clear. induction (b :: bs'); simpl; congruence.
    - clear -Hbs Hcmp. induction Hbs; constructor; auto. }
  cbn [Eval]. unfold exprGT_Eval, exprGTE_Eval, exprLT_Eval, exprLTE_Eval.
  repeat split; apply Hloop; intros b Hb;
    apply (Int64Value_compare a b Ha Hb).
Qed.

End Chains.

(** gt(3, 1, 2) is true, although 1 is not greater than 2. *)
Lemma comparison_is_against_operand0_witness :
  Eval (GT (EValue (Int64Value 3)) (EValue (Int64Value 1)) [EValue (Int64Value 2)]) None
  = Ok (BoolValue true).
Proof.
  apply (comparison_is_against_operand0 None "gt" 3%Z [1%Z; 2%Z]).
  - discriminate.
  - repeat constructor; lia.
Defined.

(** ** What the operators return *)

Section Results.

Variable params : Params.

Local Abbreviation is_bool v := (v = BoolValue true \/ v = BoolValue false).

Ltac step_eval :=
  match goal with
  | H : context [Eval ?e params] |- _ =>
      destruct (Eval e params) as [?v| |] eqn:?; cbn [mbind outcome_bind] in H;
      try discriminate H
  end.

Lemma exprOr_loop_bool ops v : exprOr_loop Eval ops params = Ok v -> is_bool v.
Proof.
  induction ops as [|e ops IH]; cbn [exprOr_loop].
  - intros [= <-]. auto.
  - intros H. step_eval.
    destruct (negb _); [discriminate H|].
    destruct (Value_Equal v0 (BoolValue true)) eqn:E; [|by apply IH].
    injection H as <-. apply Value_Equal_eq in E. auto.
Qed.

Lemma exprAnd_loop_bool ops v : exprAnd_loop Eval ops params = Ok v -> is_bool v.
Proof.
  induction ops as [|e ops IH]; cbn [exprAnd_loop].
  - intros [= <-]. auto.
  - intros H. step_eval.
    destruct (negb _); [discriminate H|].
    destruct (Value_Equal v0 (BoolValue false)) eqn:E; [|by apply IH].
    injection H as <-. apply Value_Equal_eq in E. auto.
Qed.

Lemma exprEq_loop_bool v0 ops v : exprEq_loop Eval v0 ops params = Ok v -> is_bool v.
Proof.
  induction ops as [|e ops IH]; cbn [exprEq_loop].
  - intros [= <-]. auto.
  - intros H. step_eval. destruct (negb _); [|by apply IH].
    injection H as <-. auto.
Qed.

Lemma exprIn_loop_bool v0 ops v : exprIn_loop Eval v0 ops params = Ok v -> is_bool v.
Proof.
  induction ops as [|e ops IH]; cbn [exprIn_loop].
  - intros [= <-]. auto.
  - intros H. step_eval. destruct (Value_Equal _ _); [|by apply IH].
    injection H as <-. auto.
Qed.

Lemma compare_loop_bool cmp v0 ops v :
  compare_loop Eval cmp v0 ops params = Ok v -> is_bool v.
Proof.
  induction ops as [|e ops IH]; cbn [compare_loop].
  - intros [= <-]. auto.
  - intros H. step_eval.
    destruct (cmp v0 v1) as [r| |]; cbn [mbind outcome_bind] in H; try discriminate H.
    destruct (negb r); [|by apply IH]. injection H as <-. auto.
Qed.

Lemma compare_Eval_bool name cmp ops v :
  compare_Eval Eval name cmp ops params = Ok v -> is_bool v.
Proof.
  destruct ops as [|a [|b l]]; cbn [compare_Eval]; try discriminate.
  intros H. step_eval. by apply compare_loop_bool in H.
Qed.

(** X10: whenever an operator other than fnv and let returns a Value, that
    Value is [BoolValue(true)] or [BoolValue(false)], whatever its operands
    are. *)
Theorem operators_return_BoolValues t kind operands v :
  t <> exprFNV -> t <> exprLet ->
  Eval (EOp t kind operands) params = Ok v ->
  v = BoolValue true \/ v = BoolValue false.
Proof.
  intros Hf Hl. destruct t; try congruence; cbn [Eval].
  - destruct operands as [|e l]; cbn [exprNot_Eval]; [discriminate|].
    intros H. step_eval. destruct (negb _); [discriminate H|].
    destruct (Value_Equal _ _); injection H as <-; auto.
  - destruct operands as [|a [|b l]]; cbn [exprOr_Eval]; try discriminate.
    intros H. step_eval. destruct (negb _); [discriminate H|].
    destruct (Value_Equal v0 (BoolValue true)) eqn:E; [|by apply exprOr_loop_bool in H].
    injection H as <-. apply Value_Equal_eq in E. auto.
  - destruct operands as [|a [|b l]]; cbn [exprAnd_Eval]; try discriminate.
    intros H. step_eval. destruct (negb _); [discriminate H|].
    destruct (Value_Equal v0 (BoolValue false)) eqn:E; [|by apply exprAnd_loop_bool in H].
    injection H as <-. apply Value_Equal_eq in E. auto.
  - destruct operands as [|a [|b l]]; cbn [exprEq_Eval]; try discriminate.
    intros H. step_eval. by apply exprEq_loop_bool in H.
  - destruct operands as [|a [|b l]]; cbn [exprIn_Eval]; try discriminate.
    intros H. step_eval. by apply exprIn_loop_bool in H.
  - apply compare_Eval_bool.
  - apply compare_Eval_bool.
  - apply compare_Eval_bool.
  - apply compare_Eval_bool.
  - destruct operands as [|a [|b [|c l]]]; cbn [exprPercentile_Eval]; try discriminate.
    intros H.
    destruct (toInt64 (exprFNV_Eval Eval [a] params)) as [h| |];
      cbn [mbind outcome_bind] in H; try discriminate H.
    destruct (toInt64 (Eval b params)) as [p| |];
      cbn [mbind outcome_bind] in H; try discriminate H.
    destruct (_ <=? _)%Z; injection H as <-; auto.
Qed.

End Results.

Lemma operators_return_BoolValues_witness :
  Eval (Or (EValue (newValue "bool" "1")) (EValue (BoolValue false)) []) None
  = Ok (BoolValue false) /\
  (BoolValue false = BoolValue true \/ BoolValue false = BoolValue false).
Proof.
  split; [reflexivity|].
  apply (operators_return_BoolValues None exprOr "or"
           [EValue (newValue "bool" "1"); EValue (BoolValue false)] (BoolValue false));
    [discriminate|discriminate|reflexivity].
Defined.

(** ** Arity and failing operands *)

Section Failures.

Variable params : Params.

(** X11: an operator other than let over too few operands (or, for fnv
    and percentile, too many) returns an error, the same whatever the
    operands and the Params are: none of them is evaluated. *)
Theorem wrong_arity_is_an_error t kind :
  t <> exprLet ->
  exists msg, forall (operands : list Expr) params',
    arity_ok t (length operands) = false ->
    Eval (EOp t kind operands) params' = Err (errors_New msg).
Proof.
  intros Hl.
  destruct t; try congruence; eexists; intros ops ps Har;
    cbn [arity_ok] in Har; cbn [Eval];
    unfold exprGT_Eval, exprGTE_Eval, exprLT_Eval, exprLTE_Eval;
    destruct ops as [|a [|b [|c l]]]; try discriminate Har; reflexivity.
Qed.

(** X12: [exprLet.Eval] does not check the number of its operands: with
    none, with a Param only, or with a Param and a value that evaluates and
    reads under the Param's type, it panics on the operand that is not
    there. *)
Theorem Let_without_its_operands_panics kind symb value val fr :
  Eval value params = Ok val ->
  scope symb val params = Ok fr ->
  Eval (EOp exprLet kind []) params = Panic index_out_of_range /\
  Eval (EOp exprLet kind [EParam symb]) params = Panic index_out_of_range /\
  Eval (EOp exprLet kind [EParam symb; value]) params = Panic index_out_of_range.
Proof.
  intros Hval Hscope. cbn [Eval exprLet_Eval]. rewrite Hval.
  cbn [mbind outcome_bind]. rewrite Hscope. repeat split.
Qed.

(** X13: when operand 0 of an operator other than let fails, with an error
    or a panic, and the number of operands is right, the operator fails in
    the same way; no later operand is evaluated. *)
Theorem operand0_failure_is_returned t kind op0 rest :
  t <> exprLet ->
  arity_ok t (S (length rest)) = true ->
  (forall e, Eval op0 params = Err e ->
             Eval (EOp t kind (op0 :: rest)) params = Err e) /\
  (forall p, Eval op0 params = Panic p ->
             Eval (EOp t kind (op0 :: rest)) params = Panic p).
Proof.
  intros Hl Har.
  split; intros x Hx; destruct t; try congruence; cbn [arity_ok] in Har; cbn [Eval];
    unfold exprGT_Eval, exprGTE_Eval, exprLT_Eval, exprLTE_Eval;
    destruct rest as [|b [|c l]]; try discriminate Har;
    cbn [exprNot_Eval exprOr_Eval exprAnd_Eval exprEq_Eval exprIn_Eval compare_Eval
         exprFNV_Eval exprPercentile_Eval toInt64];
    rewrite Hx; reflexivity.
Qed.

End Failures.

Lemma wrong_arity_is_an_error_witness :
  exists msg, forall (operands : list Expr) params',
    arity_ok exprOr (length operands) = false ->
    Eval (EOp exprOr "or" operands) params' = Err (errors_New msg).
Proof.
  apply (wrong_arity_is_an_error exprOr "or"). discriminate.
Defined.

Lemma Let_without_its_operands_panics_witness :
  Eval (EOp exprLet "let" [EParam (Int64Param "x"); EValue (Int64Value 3)]) (bag ∅)
  = Panic index_out_of_range.
Proof.
  apply (Let_without_its_operands_panics (bag ∅) "let" (Int64Param "x")
           (EValue (Int64Value 3)) (Int64Value 3) (newStack "x" (PInt64 3) (bag ∅)));
    reflexivity.
Defined.

Lemma operand0_failure_is_returned_witness :
  Eval (GT (EParam (Int64Param "age")) (EValue (Int64Value 18)) []) (bag ∅)
  = Err ErrParamNotFound.
Proof.
  apply (operand0_failure_is_returned (bag ∅) exprGT "gt" (EParam (Int64Param "age"))
           [EValue (Int64Value 18)]); [discriminate|reflexivity|reflexivity].
Defined.

(** ** Params and int64 *)

Section ParamValues.
Local Open Scope Z_scope.


(** X15: an int64 that a Params holds for a name comes back from
    [exprToInt64] over the int64 Param of that name, and so does the int64
    of an [Int64Value]. *)
Theorem exprToInt64_reads_the_int64 impl name i :
  - 2 ^ 63 <= i < 2 ^ 63 ->
  GetInt64 impl name = Ok i ->
  exprToInt64 (EParam (Int64Param name)) (Some impl) = Ok i /\
  exprToInt64 (EValue (Int64Value i)) (Some impl) = Ok i.
Proof.
  intros Hi Hget. unfold exprToInt64, toInt64.
  cbn [Eval Param_Eval Value_Eval Int64Param Param_Type Param_Name call
       String.eqb Ascii.eqb Bool.eqb].
  rewrite Hget. unfold Value_Eval.
  cbn [mbind outcome_bind Int64Value newValue Value_Data].
  rewrite ParseInt_FormatInt by exact Hi. split; reflexivity.
Qed.

Lemma percentile_by_hash kind params op1 op2 v1 v2 p :
  Eval op1 params = Ok v1 -> Eval op2 params = Ok v2 ->
  ParseInt (Value_Data v2) = Ok p ->
  Eval (EOp exprPercentile kind [op1; op2]) params
  = Ok (BoolValue (Sum32 (Value_Data v1) mod 100 <=? p)).
Proof.
  intros H1 H2 Hp.
  cbn [Eval exprPercentile_Eval exprFNV_Eval]. rewrite H1, H2.
  unfold toInt64. cbn [mbind outcome_bind Value_Data Int64Value newValue].
  pose proof (Sum32_uint32 (Value_Data v1)) as Hh.
  rewrite ParseInt_FormatInt by lia. rewrite Hp. cbn [mbind outcome_bind].
  rewrite Z.rem_mod_nonneg by lia.
  destruct (_ <=? p); reflexivity.
Qed.

(** X16: percentile over a first operand that evaluates is true as soon as
    the int64 of operand 1 is 99 or more, false when it is negative, and
    stays true when that int64 grows. *)
Theorem percentile_thresholds kind params op1 v1 :
  Eval op1 params = Ok v1 ->
  (forall op2 v2 p, Eval op2 params = Ok v2 -> ParseInt (Value_Data v2) = Ok p ->
     (99 <= p -> Eval (EOp exprPercentile kind [op1; op2]) params = Ok (BoolValue true)) /\
     (p < 0 -> Eval (EOp exprPercentile kind [op1; op2]) params = Ok (BoolValue false))) /\
  (forall op2 v2 p op2' v2' p',
     Eval op2 params = Ok v2 -> ParseInt (Value_Data v2) = Ok p ->
     Eval op2' params = Ok v2' -> ParseInt (Value_Data v2') = Ok p' ->
     p <= p' ->
     Eval (EOp exprPercentile kind [op1; op2]) params = Ok (BoolValue true) ->
     Eval (EOp exprPercentile kind [op1; op2']) params = Ok (BoolValue true)).
Proof.
  intros H1.
  pose proof (percentile_by_hash kind params) as Hspec.
  pose proof (Z.mod_pos_bound (Sum32 (Value_Data v1)) 100 ltac:(lia)) as Hm.
  split.
  - intros op2 v2 p H2 Hp. rewrite (Hspec op1 op2 v1 v2 p H1 H2 Hp).
    split; intros Hb; do 2 f_equal; [apply Z.leb_le|apply Z.leb_gt]; lia.
  - intros op2 v2 p op2' v2' p' H2 Hp H2' Hp' Hle.
    rewrite (Hspec op1 op2 v1 v2 p H1 H2 Hp), (Hspec op1 op2' v1 v2' p' H1 H2' Hp').
    intros [= Hb]. do 2 f_equal.
    destruct (Z.leb_spec (Sum32 (Value_Data v1) mod 100) p); [|discriminate Hb].
    apply Z.leb_le. lia.
Qed.

End ParamValues.


Lemma exprToInt64_reads_the_int64_witness :
  exprToInt64 (EParam (Int64Param "age")) (bag {["age" := PInt64 (-42)]}) = Ok (-42)%Z.
Proof.
  refine (proj1 (exprToInt64_reads_the_int64
    {| GetString := bag_get as_string {["age" := PInt64 (-42)]};
       GetBool := bag_get as_bool {["age" := PInt64 (-42)]};
       GetInt64 := bag_get as_int64 {["age" := PInt64 (-42)]};
       GetFloat64 := bag_get as_float64 {["age" := PInt64 (-42)]} |}
    "age" (-42)%Z _ _)).
  - lia.
  - reflexivity.
Defined.

Lemma percentile_thresholds_witness :
  Eval (Percentile (EValue (StringValue "user-1")) (EValue (Int64Value 99))) None
  = Ok (BoolValue true) /\
  Eval (Percentile (EValue (StringValue "user-1")) (EValue (Int64Value (-1)))) None
  = Ok (BoolValue false).
Proof.
  pose proof (percentile_thresholds "percentile" None (EValue (StringValue "user-1"))
                (StringValue "user-1") eq_refl) as [H _].
  split.
  - apply (H (EValue (Int64Value 99)) (Int64Value 99) 99%Z eq_refl eq_refl). lia.
  - apply (H (EValue (Int64Value (-1))) (Int64Value (-1)) (-1)%Z eq_refl eq_refl). lia.
Defined.

(** ** walk *)

Section WalkFacts.

Context {St : Type}.
Variable fn : Expr -> St -> option error * St.

Lemma calls_app l1 l2 st :
  calls fn (l1 ++ l2)%list st =
  match calls fn l1 st with
  | (Some err, st') => (Some err, st')
  | (None, st') => calls fn l2 st'
  end.
Proof.
  revert st; induction l1 as [|e l1 IH]; intros st; simpl; [reflexivity|].
  destruct (fn e st) as [[err|] st']; [reflexivity|apply IH].
Qed.

Lemma walk_calls expr st : walk fn expr st = calls fn (preorder expr) st.
Proof.
  revert st. induction expr as [v|p|t kind operands IH] using Expr_ind; intros st;
    cbn [walk preorder calls]; destruct (fn _ st) as [[err|] st']; try reflexivity.
  revert st'. induction IH as [|x r Hx _ IHr]; intros st'; [reflexivity|].
  cbn [walk_operands flat_map]. rewrite calls_app, Hx.
  destruct (calls fn (preorder x) st') as [[err|] st'']; [reflexivity|apply IHr].
Qed.

(** X17: [walk] calls the closure on the nodes of the expression in
    pre-order (a node, then its operands from left to right, each with its
    own operands), threading what the closure captures from call to call,
    and stops at the first call that returns an error, which it returns. *)
Theorem walk_calls_in_preorder expr st :
  walk fn expr st = calls fn (preorder expr) st.
Proof. apply walk_calls. Qed.

End WalkFacts.

(** X18: with a check that captures nothing, [walk] returns an error
    exactly when the check rejects some node of the expression, and nil
    exactly when it accepts every node. *)
Theorem walk_checks_every_node (check : Expr -> option error) expr :
  (walk (fun e (st : unit) => (check e, st)) expr tt).1 = None <->
  Forall (fun e => check e = None) (preorder expr).
Proof.
  rewrite walk_calls. generalize (preorder expr) as l.
  induction l as [|e l IH]; simpl.
  - split; [constructor|reflexivity].
  - destruct (check e) as [err|] eqn:E; simpl.
    + split; [discriminate|]. intros H. inversion H; congruence.
    + rewrite IH. split; [by constructor|]. intros H. by inversion H.
Qed.

(** ** JSON: what decodes, and to what *)

Section JSONFacts.
Import json.




(** Induction over JSON documents, with the elements of an array and the
    members of an object. *)
Lemma json_ind (P : json -> Prop) :
  P JNull -> (forall b, P (JBool b)) -> (forall l, P (JNumber l)) ->
  (forall s, P (JString s)) ->
  (forall elems, Forall P elems -> P (JArray elems)) ->
  (forall members, Forall (fun m => P m.2) members -> P (JObject members)) ->
  forall j, P j.
Proof.
  intros HN HB HNu HS HA HO. fix go 1.
  intros [|b|l|s|elems|members]; [exact HN|apply HB|apply HNu|apply HS|apply HA|apply HO].
  - induction elems as [|x r IHr]; constructor; [apply go|exact IHr].
  - induction members as [|[k x] r IHr]; constructor; [apply go|exact IHr].
Qed.

(** An expression without a node of one of the operator structs. *)
Local Abbreviation without t e :=
  (Forall (fun n => forall kind operands, n <> EOp t kind operands) (preorder e)).

Lemma without_EOp t t' kind (operands : list Expr) :
  t' <> t -> Forall (fun e => without t e) operands ->
  without t (EOp t' kind operands).
Proof.
  intros Hne Hall. cbn [preorder]. constructor; [congruence|].
  induction Hall as [|x r Hx _ IHr]; simpl; [constructor|].
  apply Forall_app. split; assumption.
Qed.

Lemma operator_of_kind_not_Let kind t : operator_of_kind kind = Some t -> t <> exprLet.
Proof.
  unfold operator_of_kind.
  repeat match goal with
         | |- context [String.eqb ?a ?b] => destruct (String.eqb a b); [congruence|]
         end.
  discriminate.
Qed.

Lemma without_leaf t :
  (forall v, without t (EValue v)) /\ (forall p, without t (EParam p)).
Proof. split; intros; cbn [preorder]; repeat constructor; discriminate. Qed.

Lemma unmarshalExpr_without_Let_step data :
  (forall r, operator_UnmarshalJSON unmarshalExpr data = Ok r ->
             Forall (fun e => without exprLet e) r.2) ->
  forall kind e, unmarshalExpr kind data = Ok e -> without exprLet e.
Proof.
  intros Hop kind e. rewrite unmarshalExpr_unfold.
  destruct (String.eqb kind "value").
  { destruct (Unmarshal_Value data); cbn [mbind outcome_bind]; try discriminate.
    intros [= <-]. apply without_leaf. }
  destruct (String.eqb kind "param").
  { destruct (Unmarshal_Param data); cbn [mbind outcome_bind]; try discriminate.
    intros [= <-]. apply without_leaf. }
  destruct (operator_of_kind kind) as [t|] eqn:Hk; [|discriminate].
  destruct (operator_UnmarshalJSON unmarshalExpr data) as [r| |] eqn:Er;
    cbn [mbind outcome_bind]; try discriminate.
  intros [= <-]. apply without_EOp; [by apply operator_of_kind_not_Let in Hk|by apply Hop].
Qed.

Lemma unmarshalExpr_without_Let data :
  (forall kind e, unmarshalExpr kind data = Ok e -> without exprLet e) /\
  (forall Exprs Exprs',
     Forall (fun e => without exprLet e) Exprs ->
     operands_UnmarshalJSON unmarshalExpr Exprs data = Ok Exprs' ->
     Forall (fun e => without exprLet e) Exprs').
Proof.
  induction data as [|b|l|s|elems IH|members IH] using json_ind.
  1-5: split;
    [ apply unmarshalExpr_without_Let_step; intros r; cbn [operator_UnmarshalJSON];
      try discriminate; intros [= <-]; constructor | ].
  1-4: intros Exprs Exprs' HE; cbn [operands_UnmarshalJSON]; try discriminate;
       intros [= <-]; exact HE.
  - intros Exprs Exprs' HE. cbn [operands_UnmarshalJSON].
    assert (Hloop : forall ns, operands_loop unmarshalExpr elems = Ok ns ->
                               Forall (fun e => without exprLet e) ns).
    { clear HE. induction IH as [|x r [Hx _] _ IHr]; cbn [operands_loop].
      - intros ns [= <-]. constructor.
      - intros ns.
        destruct (unmarshalExpr (gjson_kind x) x) as [n| |] eqn:En;
          cbn [mbind outcome_bind]; try discriminate.
        destruct (operands_loop unmarshalExpr r) as [ns'| |];
          cbn [mbind outcome_bind]; try discriminate.
        intros [= <-]. constructor; [by eapply Hx|by apply IHr]. }
    destruct (operands_loop unmarshalExpr elems) as [ns| |];
      cbn [mbind outcome_bind]; try discriminate.
    intros [= <-]. apply Forall_app. split; [exact HE|by apply Hloop].
  - split; [|intros Exprs Exprs' HE; cbn [operands_UnmarshalJSON]; discriminate].
    apply unmarshalExpr_without_Let_step. intros r. cbn [operator_UnmarshalJSON].
    assert (Hmem : forall K Exprs err r',
              Forall (fun e => without exprLet e) Exprs ->
              operator_members unmarshalExpr members K Exprs err = Ok r' ->
              Forall (fun e => without exprLet e) r'.1.2).
    { induction IH as [|[k x] rest [_ Hx] _ IHr]; cbn [operator_members].
      - intros K Exprs err r' HE [= <-]. exact HE.
      - intros K Exprs err r' HE.
        destruct (names k "kind").
        { destruct (store_string K err x). by apply IHr. }
        destruct (names k "operands"); [|by apply IHr].
        destruct (operands_UnmarshalJSON unmarshalExpr Exprs x) as [Exprs'| |] eqn:EO;
          cbn [mbind outcome_bind]; try discriminate.
        apply IHr. by eapply Hx. }
    destruct (operator_members unmarshalExpr members "" [] None) as [r'| |] eqn:Er;
      cbn [mbind outcome_bind]; try discriminate.
    apply Hmem in Er; [|constructor].
    destruct r' as [[K Exprs] [err|]]; cbn [mbind outcome_bind]; try discriminate.
    intros [= <-]. exact Er.
Qed.

(** X20: no JSON document decodes to an expression with a Let in it,
    at its root or below. *)
Theorem Unmarshal_never_gives_a_Let data e :
  Unmarshal data = Ok e ->
  Forall (fun n => forall kind operands, n <> EOp exprLet kind operands) (preorder e).
Proof. apply (proj1 (unmarshalExpr_without_Let data)). Qed.

Lemma Unmarshal_never_gives_a_Let_witness :
  Unmarshal (JObject [("kind", JString "not");
                      ("operands", JArray [JObject [("kind", JString "value");
                                                    ("type", JString "bool");
                                                    ("data", JString "true")]])])
  = Ok (Not (EValue (BoolValue true))) /\
  Forall (fun n => forall kind operands, n <> EOp exprLet kind operands)
    (preorder (Not (EValue (BoolValue true)))).
Proof.
  split; [reflexivity|].
  apply (Unmarshal_never_gives_a_Let
           (JObject [("kind", JString "not");
                     ("operands", JArray [JObject [("kind", JString "value");
                                                   ("type", JString "bool");
                                                   ("data", JString "true")]])])).
  reflexivity.
Defined.

End JSONFacts.

(** ** The HTTP API: what put and watch answer *)

Section APIFacts.
Import server.

Context {S : Type}.
Variable svc : RulesetService S.

(** X21: the put handler answers 200, 400 or 500 and nothing else. A body
    that does not decode is answered 400 without calling the service; a
    ruleset the service does not find is answered 500 (and not 404), as any
    error of the service that is neither a validation error nor
    NotModified. *)
Theorem put_answers_200_400_or_500 st path decoded :
  StatusCode (put svc st path decoded).1 ∈ [200; 400; 500]%Z /\
  (forall rules err,
     decoded = (rules, Some err) ->
     put svc st path decoded = (writeError err StatusBadRequest, st)) /\
  (forall rules version st' err,
     decoded = (rules, None) ->
     Put svc st path rules = (version, Some err, st') ->
     IsValidationError err = false -> err <> ErrRulesetNotModified ->
     put svc st path decoded = (writeError err StatusInternalServerError, st')).
Proof.
  split; [|split].
  - unfold put. destruct decoded as [rules [err|]].
    { apply list_elem_of_In. simpl. tauto. }
    destruct (Put svc st path rules) as [[version err] st'].
    destruct (Get svc st' path version) as [rs [gerr|]];
      destruct err as [err|]; try destruct (IsValidationError err);
      try destruct (negb _); apply list_elem_of_In; simpl; tauto.
  - intros rules err ->. reflexivity.
  - intros rules version st' err -> HP Hval Hne. unfold put. rewrite HP, Hval.
    rewrite bool_decide_eq_false_2 by exact Hne. reflexivity.
Qed.


End APIFacts.

Section APIWitnesses.
Import server.

Local Abbreviation lost_service :=
  {| Put := fun (st : unit) _ _ => ("", Some ErrRulesetNotFound, st);
     Get := fun _ _ _ => (None, Some ErrRulesetNotFound);
     Watch := fun _ _ _ => (None, None) |}.

Lemma put_answers_200_400_or_500_witness :
  put lost_service tt "no/such/ruleset" ([], None)
  = (writeError ErrRulesetNotFound 500%Z, tt).
Proof.
  apply (proj2 (proj2 (put_answers_200_400_or_500 lost_service tt "no/such/ruleset"
                         ([], None))) [] "" tt ErrRulesetNotFound);
    [reflexivity|reflexivity|reflexivity|discriminate].
Defined.


End APIWitnesses.

(** ** Operands of the wrong type, and a Let that fails *)

Section TypeErrors.

Variable params : Params.

Lemma exprOr_loop_type_error pre d post v :
  Forall (fun e => exists u, Eval e params = Ok u /\ Value_Type u = "bool" /\
                             Value_Equal u (BoolValue true) = false) pre ->
  Eval d params = Ok v -> Value_Type v <> "bool" ->
  exprOr_loop Eval (pre ++ d :: post) params
  = Err (errors_New "invalid operand type for Or func").
Proof.
  intros Hpre Hd Hv. apply String.eqb_neq in Hv.
  induction Hpre as [|e pre (u & He & Ht & Hu) _ IH]; simpl.
  - rewrite Hd. simpl. rewrite Hv. reflexivity.
  - rewrite He. simpl. rewrite Ht, Hu. simpl. exact IH.
Qed.

Lemma exprAnd_loop_type_error pre d post v :
  Forall (fun e => exists u, Eval e params = Ok u /\ Value_Type u = "bool" /\
                             Value_Equal u (BoolValue false) = false) pre ->
  Eval d params = Ok v -> Value_Type v <> "bool" ->
  exprAnd_loop Eval (pre ++ d :: post) params
  = Err (errors_New "invalid operand type for And func").
Proof.
  intros Hpre Hd Hv. apply String.eqb_neq in Hv.
  induction Hpre as [|e pre (u & He & Ht & Hu) _ IH]; simpl.
  - rewrite Hd. simpl. rewrite Hv. reflexivity.
  - rewrite He. simpl. rewrite Ht, Hu. simpl. exact IH.
Qed.

(** X23: Not over an operand that evaluates to a Value of another Type
    than bool returns an error; so do Or and And (of at least two operands)
    when the operands before that one evaluate to bool Values that do not
    decide, whatever the operands after it are. *)
Theorem operand_that_is_no_bool_is_an_error kind d v :
  Eval d params = Ok v -> Value_Type v <> "bool" ->
  (forall rest,
     Eval (EOp exprNot kind (d :: rest)) params
     = Err (errors_New "invalid operand type for Not func")) /\
  (forall pre post,
     2 <= length (pre ++ d :: post) ->
     Forall (fun e => exists u, Eval e params = Ok u /\ Value_Type u = "bool" /\
                                Value_Equal u (BoolValue true) = false) pre ->
     Eval (EOp exprOr kind (pre ++ d :: post)) params
     = Err (errors_New "invalid operand type for Or func")) /\
  (forall pre post,
     2 <= length (pre ++ d :: post) ->
     Forall (fun e => exists u, Eval e params = Ok u /\ Value_Type u = "bool" /\
                                Value_Equal u (BoolValue false) = false) pre ->
     Eval (EOp exprAnd kind (pre ++ d :: post)) params
     = Err (errors_New "invalid operand type for And func")).
Proof.
  intros Hd Hv. split; [|split].
  - intros rest. cbn [Eval exprNot_Eval]. rewrite Hd. simpl.
    apply String.eqb_neq in Hv. rewrite Hv. reflexivity.
  - intros pre post Hlen Hpre. cbn [Eval].
    rewrite exprOr_Eval_loop by exact Hlen. by eapply exprOr_loop_type_error.
  - intros pre post Hlen Hpre. cbn [Eval].
    rewrite exprAnd_Eval_loop by exact Hlen. by eapply exprAnd_loop_type_error.
Qed.

(** X24: Eq and In compare the Type with the Data: over an operand 0 and
    another operand that evaluate to Values of different Types, Eq returns
    false and In (with no further operand) returns false, even when the
    two Data are the same. *)
Theorem Values_of_different_Types_are_not_equal kind a b v w :
  Eval a params = Ok v -> Eval b params = Ok w ->
  Value_Type v <> Value_Type w ->
  (forall rest, Eval (EOp exprEq kind (a :: b :: rest)) params = Ok (BoolValue false)) /\
  Eval (EOp exprIn kind [a; b]) params = Ok (BoolValue false).
Proof.
  intros Ha Hb Hne.
  assert (HE : Value_Equal v w = false).
  { apply Value_Equal_neq. intros ->. congruence. }
  split; [intros rest|]; cbn [Eval exprEq_Eval exprIn_Eval exprEq_loop exprIn_loop];
    rewrite Ha; cbn [mbind outcome_bind]; rewrite Hb; cbn [mbind outcome_bind];
    rewrite HE; reflexivity.
Qed.

(** X25: a Let whose value operand fails returns that failure, and a Let
    whose value does not read under the Type of its Param returns the error
    of the reading; in both cases whatever the body is, which is not
    evaluated. *)
Theorem Let_fails_before_its_body kind symb value rest :
  (forall e, Eval value params = Err e ->
     Eval (EOp exprLet kind (EParam symb :: value :: rest)) params = Err e) /\
  (forall val e, Eval value params = Ok val -> scope symb val params = Err e ->
     Eval (EOp exprLet kind (EParam symb :: value :: rest)) params = Err e).
Proof.
  split.
  - intros e He. cbn [Eval exprLet_Eval]. rewrite He. reflexivity.
  - intros val e Hval Hs. cbn [Eval exprLet_Eval]. rewrite Hval.
    cbn [mbind outcome_bind]. rewrite Hs. reflexivity.
Qed.

End TypeErrors.

Lemma operand_that_is_no_bool_is_an_error_witness :
  Eval (Or (EValue (BoolValue false)) (EValue (StringValue "true")) [True_]) None
  = Err (errors_New "invalid operand type for Or func").
Proof.
  apply (proj1 (proj2 (operand_that_is_no_bool_is_an_error None "or"
           (EValue (StringValue "true")) (StringValue "true") eq_refl
           ltac:(discriminate))) [EValue (BoolValue false)] [True_]).
  - simpl. lia.
  - repeat constructor. exists (BoolValue false). repeat split.
Defined.

(** Scenario S2 of the spec: the rule eq(1, foo) with the string foo set
    to 1. *)
Lemma Values_of_different_Types_are_not_equal_witness :
  Eval (Eq (EValue (Int64Value 1)) (EParam (StringParam "foo")) [])
    (bag {["foo" := PString "1"]}) = Ok (BoolValue false).
Proof.
  apply (Values_of_different_Types_are_not_equal (bag {["foo" := PString "1"]})
           "eq" (EValue (Int64Value 1)) (EParam (StringParam "foo"))
           (Int64Value 1) (StringValue "1")).
  - reflexivity.
  - reflexivity.
  - discriminate.
Defined.

Lemma Let_fails_before_its_body_witness :
  Eval (Let (EParam (BoolParam "on")) (EParam (BoolParam "absent"))
          (EParam (BoolParam "on"))) (bag ∅) = Err ErrParamNotFound /\
  Eval (Let (EParam (BoolParam "on")) (EValue (StringValue "yes"))
          (EParam (BoolParam "on"))) (bag ∅)
  = Err (NumError "ParseBool" "yes" ErrSyntax).
Proof.
  split.
  - apply (proj1 (Let_fails_before_its_body (bag ∅) "let" (BoolParam "on")
             (EParam (BoolParam "absent")) [EParam (BoolParam "on")])).
    reflexivity.
  - apply (proj2 (Let_fails_before_its_body (bag ∅) "let" (BoolParam "on")
             (EValue (StringValue "yes")) [EParam (BoolParam "on")])
             (StringValue "yes")); reflexivity.
Defined.
